(** * globes.js: orbital position model and depth-sorted renderer

    A shallow embedding of [src/globes.js].  JavaScript numbers are read as
    real numbers: [Math.cos], [Math.sin], [Math.tan], [Math.asin],
    [Math.min] and [Math.max] are the functions of the same name of the
    Standard Library's [Reals], and [+], [-], [*], [/] are exact.  Rounding
    of IEEE doubles is outside the model.  The code divides by a period, by
    a base radius, by a ring radius and by [MAX_ORBIT * 2]; on [bodies] all
    of them are positive ([bodies_divisors_positive]).

    The mutable [state] array is a [list] threaded through the update loop
    and written by index; a read that JavaScript would answer with a
    [TypeError] (a property of [undefined]) is [None]. *)

From Stdlib Require Import Reals Lra Lia ZArith List Permutation Sorted.
From stdpp Require Import base option list sorting.

Local Open Scope R_scope.

(** ** Catalog constants (globes.js:17-18) *)

Module K.
Definition S : R := 2000.
Definition E : R := 18.33.
Definition M : R := 5.
Definition J : R := 201.
Definition SA : R := 167.
Definition U : R := 72.9.
Definition N : R := 70.5.
Definition MAX_ORBIT : R := S + 4500.
End K.

(** ** Data model *)

(** A catalog entry [{ r, d, p, o, ring }]; [o: null] is [None], an absent
    [ring] property is [None]. *)
Module Body.
Record t : Type := mk {
  r : R;
  d : R;
  p : R;
  o : option nat;
  ring : option (R * R)
}.
End Body.

(** An entry [{ x, y, z, r, dr }] of the [state] array. *)
Module St.
Record t : Type := mk {
  x : R;
  y : R;
  z : R;
  r : R;
  dr : R
}.
Definition pos (s : t) : R * R * R := (x s, y s, z s).
End St.

(** globes.js:20-35; the entries are named after the comments beside them. *)
Definition sun : Body.t := Body.mk K.S 0 1 None None.
Definition mercury : Body.t :=
  Body.mk 7 (K.S + 20) (58.6 * 864e2) (Some 0%nat) None.
Definition venus : Body.t :=
  Body.mk 17 (K.S + 50) (243 * 864e2) (Some 0%nat) None.
Definition earth : Body.t :=
  Body.mk K.E (K.S + 150) (365.256 * 864e2) (Some 0%nat) None.
Definition moon : Body.t :=
  Body.mk K.M (K.E + 50) (29.5 * 864e2) (Some 3%nat) None.
Definition mars : Body.t :=
  Body.mk 9.76 (K.S + 250) (687 * 864e2) (Some 0%nat) None.
Definition jupiter : Body.t :=
  Body.mk K.J (K.S + 700) (4333 * 864e2) (Some 0%nat) None.
Definition io : Body.t :=
  Body.mk 5.25 (K.J + 20) (42.5 * 36e2) (Some 6%nat) None.
Definition europa : Body.t :=
  Body.mk 4.49 (K.J + 40) (3.5 * 864e2) (Some 6%nat) None.
Definition ganymede : Body.t :=
  Body.mk 7.57 (K.J + 70) (7.155 * 864e2) (Some 6%nat) None.
Definition callisto : Body.t :=
  Body.mk 7.4 (K.J + 200) (16.689 * 864e2) (Some 6%nat) None.
Definition saturn : Body.t :=
  Body.mk K.SA (K.S + 1500) (10756 * 864e2) (Some 0%nat)
          (Some (K.SA + 100, K.SA + 200)).
Definition uranus : Body.t :=
  Body.mk K.U (K.S + 2500) (30688 * 864e2) (Some 0%nat)
          (Some (K.U + 100, K.U + 200)).
Definition neptune : Body.t :=
  Body.mk K.N (K.S + 4500) (60182 * 864e2) (Some 0%nat) None.

Definition bodies : list Body.t :=
  [ sun; mercury; venus; earth; moon; mars; jupiter; io; europa; ganymede;
    callisto; saturn; uranus; neptune ].

(** globes.js:38, [bodies.map(() => ({ x: 0, y: 0, z: 0, r: 0, dr: 0 }))] *)
Definition zero_state : St.t := St.mk 0 0 0 0 0.
Definition state0 : list St.t := map (fun _ => zero_state) bodies.

(** ** Orbital model *)

(** globes.js:49; a call without [off] passes [0]. *)
Definition orbit (t p off : R) : R := cos (t / p * 2 * PI + off).

(** The radius floor of globes.js:67. *)
Definition floor_of (b : Body.t) : R :=
  match Body.o b with Some _ => 0.5 | None => 0.51 end.

(** The body of the update loop (globes.js:62-68) once [parent] is resolved.
    Each assignment reads only the parent's field of the same name, before
    that field of [s] is written, so a snapshot of the parent's position
    taken at the start of the iteration gives the same values even when
    [parent] and [s] are the same object. *)
Definition update_body (t angle scale : R) (b : Body.t) (parent : R * R * R)
  : St.t :=
  let '(px, py, pz) := parent in
  let dist := Body.d b * scale in
  {| St.x := px + dist * orbit t (Body.p b) 0;
     St.y := py + sin angle * dist * orbit t (Body.p b) (PI / 2);
     St.z := pz + cos angle * dist * orbit t (Body.p b) (PI / 2);
     St.r := Rmax (floor_of b) (Body.r b * scale);
     St.dr := Body.d b * scale |}.

(** globes.js:61: [b.o !== null ? state[b.o] : { x: 0, y: 0, z: 0 }]; an
    index outside [state] gives [undefined], whose [.x] throws. *)
Definition resolve_parent (st : list St.t) (o : option nat)
  : option (R * R * R) :=
  match o with
  | Some j => St.pos <$> st !! j
  | None => Some (0, 0, 0)
  end.

(** One iteration of the loop of globes.js:59-69 at index [i]. *)
Definition update_step (bs : list Body.t) (t angle scale : R)
    (st : list St.t) (i : nat) : option (list St.t) :=
  b ← bs !! i;
  _ ← st !! i;
  parent ← resolve_parent st (Body.o b);
  Some (<[i := update_body t angle scale b parent]> st).

Fixpoint update_loop (bs : list Body.t) (t angle scale : R)
    (idx : list nat) (st : list St.t) : option (list St.t) :=
  match idx with
  | [] => Some st
  | i :: idx' =>
      st' ← update_step bs t angle scale st i;
      update_loop bs t angle scale idx' st'
  end.

(** [for (let i = 0; i < bodies.length; i++)] *)
Definition update_positions (bs : list Body.t) (t angle scale : R)
    (st : list St.t) : option (list St.t) :=
  update_loop bs t angle scale (seq 0 (length bs)) st.

(** Every parent index is smaller than the index of the body that names it:
    the order the catalog literal is written in. *)
Definition parent_before (ib : nat * Body.t) : bool :=
  match Body.o ib.2 with
  | Some j => Nat.ltb j ib.1
  | None => true
  end.

Definition parents_first (bs : list Body.t) : bool :=
  forallb parent_before (imap (fun i b => (i, b)) bs).

(** The loop invariant: after the iterations below [k], every entry below
    [k] holds what its iteration wrote, and that is the update of its body
    from the parent entry as it stands now. *)
Definition settled (bs : list Body.t) (t angle scale : R) (k : nat)
    (st : list St.t) : Prop :=
  forall i b, (i < k)%nat -> bs !! i = Some b ->
    exists par, resolve_parent st (Body.o b) = Some par
             /\ st !! i = Some (update_body t angle scale b par).

(** ** Depth sort (globes.js:72) *)

(** [state.map((s, i) => ({ ...s, i }))]: a copy of every entry together
    with its catalog index. *)
Definition indexed (st : list St.t) : list (St.t * nat) :=
  imap (fun i s => (s, i)) st.

(** The comparator [(a, b) => b.z - a.z]. *)
Definition by_depth (a b : St.t * nat) : R := St.z b.1 - St.z a.1.

(** [Array.prototype.sort] is a stable sort: [a] is placed after [b] only
    when the comparator is positive on [(a, b)].  Insertion from the right
    computes that order; [stable_sorted_unique] below shows that no other
    list is a stable sorted arrangement of the same entries. *)
Section Sort.
Context {A : Type} (cmp : A -> A -> R).

Fixpoint insert_by (a : A) (l : list A) : list A :=
  match l with
  | [] => [a]
  | b :: l' =>
      if Rlt_dec 0 (cmp a b) then b :: insert_by a l' else a :: b :: l'
  end.

Definition sort_by (l : list A) : list A := foldr insert_by [] l.
End Sort.

Definition depth_sorted (st : list St.t) : list (St.t * nat) :=
  sort_by by_depth (indexed st).

(** The two orders the sort is measured against: farther first, and among
    equal depths the catalog order. *)
Definition farther_or_equal (a b : St.t * nat) : Prop := St.z b.1 <= St.z a.1.
Definition keeps_catalog_order (a b : St.t * nat) : Prop :=
  St.z a.1 = St.z b.1 -> (a.2 < b.2)%nat.

(** Painted earlier: farther, or as far and earlier in the catalog. *)
Definition painted_before (a b : St.t * nat) : Prop :=
  farther_or_equal a b /\ keeps_catalog_order a b.

(** ** Drawing (globes.js:75-101) *)

(** Calls on the 2D context, in the order they are issued.  [Disc] stands
    for [beginPath; arc(x, y, r, 0, 2π); fill; stroke] and [RingArc] for
    [beginPath; ellipse(x, y, rx, ry, 0, a0, a1); stroke] with line width
    [lw]; the first field is the catalog index of the body drawn, kept to
    relate calls to bodies.  Colours are constant and left out. *)
Inductive Cmd : Type :=
  | ClearRect (w h : R)
  | Disc (i : nat) (x y r : R)
  | RingArc (i : nat) (x y rx ry a0 a1 lw : R).

(** globes.js:78: [obj.r > 0.5 || b.o === null]. *)
Definition draws_disc (b : Body.t) (s : St.t) : bool :=
  if Rgt_dec (St.r s) 0.5 then true
  else match Body.o b with None => true | Some _ => false end.

(** globes.js:89 *)
Definition ring_radius (b : Body.t) (rg : R * R) (s : St.t) : R :=
  (St.r s / Body.r b) * (rg.1 + rg.2) / 2.

(** globes.js:91-92 *)
Definition hidden_arc (angle : R) (b : Body.t) (rg : R * R) (s : St.t) : R :=
  if Rge_dec (- tan angle * (St.r s / Body.r b) * rg.1) (St.r s) then 0
  else cos angle * 2 * asin (Rmin 1 (St.r s / ring_radius b rg s)).

(** The start and end angles of globes.js:96. *)
Definition arc_start (hidden : R) : R := (- PI + hidden) / 2.
Definition arc_end (hidden : R) : R := (3 * PI - hidden) / 2.

(** globes.js:88-100 *)
Definition ring_cmd (angle cx cy : R) (i : nat) (b : Body.t) (rg : R * R)
    (s : St.t) : Cmd :=
  let ringR := ring_radius b rg s in
  let lw := sin angle * ringR + 1 in
  let hidden := hidden_arc angle b rg s in
  RingArc i (cx + St.x s) (cy + St.y s) ringR (ringR * - sin angle)
          (arc_start hidden) (arc_end hidden) (Rmax 1 lw).

(** The body of [for (const obj of sorted)]. *)
Definition draw_body (bs : list Body.t) (angle cx cy : R)
    (obj : St.t * nat) : option (list Cmd) :=
  b ← bs !! obj.2;
  Some ((if draws_disc b obj.1
         then [Disc obj.2 (cx + St.x obj.1) (cy + St.y obj.1) (St.r obj.1)]
         else [])
        ++ match Body.ring b with
           | Some rg => [ring_cmd angle cx cy obj.2 b rg obj.1]
           | None => []
           end).

Definition draw_bodies (bs : list Body.t) (angle cx cy : R)
    (sorted : list (St.t * nat)) : option (list Cmd) :=
  cmds ← mapM (draw_body bs angle cx cy) sorted;
  Some (concat cmds).

(** ** The closure of [globes] and its host *)

(** The variables [draw], [resize] and the teardown function close over,
    and what the host holds for them: whether the canvas is a child of the
    container, whether [resize] is registered on [window], how many
    callbacks [requestAnimationFrame] has queued, and the calls issued by
    the last frame. *)
Module Cl.
Record t : Type := mk {
  time : R;
  angle : R;
  scale : R;
  state : list St.t;
  canvas_width : R;
  canvas_height : R;
  attached : bool;
  listening : bool;
  queued : nat;
  surface : list Cmd
}.
End Cl.

(** [window.devicePixelRatio || 1] *)
Definition dpr_or_1 (dpr : R) : R := if Req_dec_T dpr 0 then 1 else dpr.

(** The integer part of a number, toward zero. *)
Definition truncate (v : R) : Z :=
  if Rle_dec 0 v then Int_part v else (- Int_part (- v))%Z.

(** What a canvas holds after [canvas.width = v] or [canvas.height = v].
    The attribute is an [unsigned long]: the number is truncated and
    reduced modulo 2^32, and a result above 2^31 - 1 is replaced by the
    attribute's default (300 for the width, 150 for the height). *)
Definition canvas_size (default : Z) (v : R) : R :=
  let n := (truncate v mod 4294967296)%Z in
  IZR (if (n <=? 2147483647)%Z then n else default).

(** globes.js:40-47; [rect] is the width and height of the container's
    bounding rectangle.  [ctx.setTransform] changes how later calls map to
    pixels, not their arguments, and is left out. *)
Definition resize (rect : R * R) (dpr : R) (c : Cl.t) : Cl.t :=
  Cl.mk (Cl.time c) (Cl.angle c)
        (Rmin rect.1 rect.2 / (K.MAX_ORBIT * 2))
        (Cl.state c)
        (canvas_size 300 (rect.1 * dpr_or_1 dpr))
        (canvas_size 150 (rect.2 * dpr_or_1 dpr))
        (Cl.attached c) (Cl.listening c) (Cl.queued c) (Cl.surface c).

(** globes.js:51-105 *)
Definition draw (dpr : R) (c : Cl.t) : option Cl.t :=
  let w := Cl.canvas_width c / dpr_or_1 dpr in
  let h := Cl.canvas_height c / dpr_or_1 dpr in
  let cx := w / 2 in
  let cy := h / 2 in
  st ← update_positions bodies (Cl.time c) (Cl.angle c) (Cl.scale c)
                         (Cl.state c);
  cmds ← draw_bodies bodies (Cl.angle c) cx cy (depth_sorted st);
  Some (Cl.mk (Cl.time c + 9e5) (Cl.angle c) (Cl.scale c) st
              (Cl.canvas_width c) (Cl.canvas_height c)
              (Cl.attached c) (Cl.listening c) (S (Cl.queued c))
              (ClearRect w h :: cmds)).

(** globes.js:10-109: the closure after [globes(container, options)] has
    run: canvas appended (a new canvas is 300 by 150), [resize()], listener
    added, first [draw()]. *)
Definition mounted (rect : R * R) (dpr : R) : Cl.t :=
  let c0 := Cl.mk 0 (-0.3) 1 state0 300 150 true false 0%nat [] in
  let c1 := resize rect dpr c0 in
  Cl.mk (Cl.time c1) (Cl.angle c1) (Cl.scale c1) (Cl.state c1)
        (Cl.canvas_width c1) (Cl.canvas_height c1)
        (Cl.attached c1) true (Cl.queued c1) (Cl.surface c1).

Definition globes (rect : R * R) (dpr : R) : option Cl.t :=
  draw dpr (mounted rect dpr).

(** globes.js:111-114, the function [globes] returns. *)
Definition teardown (c : Cl.t) : Cl.t :=
  Cl.mk (Cl.time c) (Cl.angle c) (Cl.scale c) (Cl.state c)
        (Cl.canvas_width c) (Cl.canvas_height c)
        false false (Cl.queued c) (Cl.surface c).

(** What the host can do to a mounted component. *)
Inductive Event : Type :=
  | Frame (dpr : R)
  | Resized (rect : R * R) (dpr : R)
  | Teardown.

(** A display refresh runs one queued callback, if there is one; a resize
    of the window runs [resize] while it is registered. *)
Definition handle (c : Cl.t) (e : Event) : option Cl.t :=
  match e with
  | Frame dpr =>
      match Cl.queued c with
      | O => Some c
      | S n =>
          draw dpr (Cl.mk (Cl.time c) (Cl.angle c) (Cl.scale c) (Cl.state c)
                          (Cl.canvas_width c) (Cl.canvas_height c)
                          (Cl.attached c) (Cl.listening c) n (Cl.surface c))
      end
  | Resized rect dpr =>
      Some (if Cl.listening c then resize rect dpr c else c)
  | Teardown => Some (teardown c)
  end.

Fixpoint run (c : Cl.t) (es : list Event) : option Cl.t :=
  match es with
  | [] => Some c
  | e :: es' => c' ← handle c e; run c' es'
  end.

(** ** Vocabulary of the further properties *)

(** The calls one pass of [for (const obj of sorted)] issues for the entry
    [s] of body [b] at index [i] (globes.js:78-100). *)
Definition body_cmds (angle cx cy : R) (i : nat) (b : Body.t) (s : St.t)
  : list Cmd :=
  (if draws_disc b s
   then [Disc i (cx + St.x s) (cy + St.y s) (St.r s)]
   else [])
  ++ match Body.ring b with
     | Some rg => [ring_cmd angle cx cy i b rg s]
     | None => []
     end.

(** The body a call draws. *)
Definition cmd_tag (c : Cmd) : option nat :=
  match c with
  | ClearRect _ _ => None
  | Disc i _ _ _ => Some i
  | RingArc i _ _ _ _ _ _ _ => Some i
  end.

(** [c1] draws a body that is at least as far as the body [c2] draws. *)
Definition not_nearer (st : list St.t) (c1 c2 : Cmd) : Prop :=
  forall i j s1 s2,
    cmd_tag c1 = Some i -> cmd_tag c2 = Some j ->
    st !! i = Some s1 -> st !! j = Some s2 -> St.z s2 <= St.z s1.

(** [c1] may come before [c2]: its body is not nearer, and if both draw
    the same body then [c1] is the disc and [c2] the ring. *)
Definition paint_order (st : list St.t) (c1 c2 : Cmd) : Prop :=
  not_nearer st c1 c2
  /\ forall i, cmd_tag c1 = Some i -> cmd_tag c2 = Some i ->
       (exists x y r, c1 = Disc i x y r)
       /\ (exists x y rx ry a0 a1 lw, c2 = RingArc i x y rx ry a0 a1 lw).

(** The sum of the orbit distances from body [i] up its chain of parents;
    [fuel] bounds the length of the chain followed. *)
Fixpoint reach (bs : list Body.t) (fuel i : nat) : R :=
  match fuel with
  | O => 0
  | S fuel' =>
      match bs !! i with
      | Some b =>
          Rabs (Body.d b)
          + match Body.o b with
            | Some j => reach bs fuel' j
            | None => 0
            end
      | None => 0
      end
  end.

(** The number of display refreshes among the events. *)
Fixpoint frames (es : list Event) : nat :=
  match es with
  | [] => O
  | Frame _ :: es' => S (frames es')
  | _ :: es' => frames es'
  end.

(** * Properties *)

(** ** The update loop *)

Lemma parents_first_lt (bs : list Body.t) :
  parents_first bs = true ->
  forall i b j, bs !! i = Some b -> Body.o b = Some j -> (j < i)%nat.
Proof.
  unfold parents_first. intros Hall i b j Hi Ho.
  rewrite forallb_forall in Hall.
  assert (Hin : In (i, b) (imap (fun i b => (i, b)) bs)).
  { apply list_elem_of_In.
    apply (elem_of_lookup_imap_2 (fun i b => (i, b))). exact Hi. }
  apply Hall in Hin. unfold parent_before in Hin. simpl in Hin.
  rewrite Ho in Hin. apply Nat.ltb_lt. exact Hin.
Qed.

Lemma resolve_parent_insert (st : list St.t) (o : option nat) (k : nat)
    (v : St.t) :
  (forall j, o = Some j -> j <> k) ->
  resolve_parent (<[k := v]> st) o = resolve_parent st o.
Proof.
  intros Hne. destruct o as [j|]; simpl; [|reflexivity].
  rewrite list_lookup_insert_ne; [reflexivity|].
  intros ->. exact (Hne j eq_refl eq_refl).
Qed.

Section Loop.
Variable bs : list Body.t.
Variables t angle scale : R.
Hypothesis parents_ok : parents_first bs = true.

Lemma update_step_settled (k : nat) (st : list St.t) :
  length st = length bs -> (k < length bs)%nat ->
  settled bs t angle scale k st ->
  exists st', update_step bs t angle scale st k = Some st'
           /\ length st' = length bs /\ settled bs t angle scale (S k) st'.
Proof.
  intros Hlen Hk Hset.
  destruct (lookup_lt_is_Some_2 bs k Hk) as [b Hb].
  destruct (lookup_lt_is_Some_2 st k ltac:(lia)) as [s Hs].
  assert (Hpar : exists par, resolve_parent st (Body.o b) = Some par).
  { destruct (Body.o b) as [j|] eqn:Ho; simpl; [|eauto].
    pose proof (parents_first_lt bs parents_ok k b j Hb Ho) as Hj.
    destruct (lookup_lt_is_Some_2 st j ltac:(lia)) as [sj Hsj].
    rewrite Hsj. simpl. eauto. }
  destruct Hpar as [par Hpar].
  exists (<[k := update_body t angle scale b par]> st).
  split; [|split].
  - unfold update_step. rewrite Hb. simpl. rewrite Hs. simpl.
    rewrite Hpar. reflexivity.
  - rewrite length_insert. exact Hlen.
  - intros i b' Hi Hb'.
    destruct (decide (i = k)) as [->|Hne].
    + assert (b' = b) by congruence. subst b'.
      exists par. split.
      * rewrite resolve_parent_insert; [exact Hpar|].
        intros j Ho. pose proof (parents_first_lt bs parents_ok k b j Hb Ho).
        lia.
      * apply list_lookup_insert_eq. lia.
    + destruct (Hset i b' ltac:(lia) Hb') as [par' [Hp' Hi']].
      exists par'. split.
      * rewrite resolve_parent_insert; [exact Hp'|].
        intros j Ho.
        pose proof (parents_first_lt bs parents_ok i b' j Hb' Ho). lia.
      * rewrite list_lookup_insert_ne; [exact Hi'|]. congruence.
Qed.

Lemma update_loop_settled (n k : nat) (st : list St.t) :
  length st = length bs -> (k + n = length bs)%nat ->
  settled bs t angle scale k st ->
  exists st', update_loop bs t angle scale (seq k n) st = Some st'
           /\ length st' = length bs
           /\ settled bs t angle scale (length bs) st'.
Proof.
  revert k st. induction n as [|n IH]; intros k st Hlen Hkn Hset.
  - assert (k = length bs) as -> by lia. exists st. simpl. auto.
  - destruct (update_step_settled k st Hlen ltac:(lia) Hset)
      as [st1 [Hstep [Hlen1 Hset1]]].
    destruct (IH (S k) st1 Hlen1 ltac:(lia) Hset1) as [st2 [Hloop H2]].
    exists st2. split; [|exact H2].
    simpl. rewrite Hstep. simpl. exact Hloop.
Qed.

(** The loop never throws on a catalog whose parents come first, and it
    leaves every entry equal to the update of its body from the final
    entry of its parent. *)
Lemma update_positions_settled (st : list St.t) :
  length st = length bs ->
  exists st', update_positions bs t angle scale st = Some st'
           /\ length st' = length bs
           /\ settled bs t angle scale (length bs) st'.
Proof.
  intros Hlen. apply (update_loop_settled (length bs) 0 st Hlen).
  - reflexivity.
  - intros i b Hi. exfalso. lia.
Qed.

(** The entries a settled array holds are determined by the catalog and
    the frame's parameters alone. *)
Lemma settled_unique (st1 st2 : list St.t) :
  length st1 = length bs -> length st2 = length bs ->
  settled bs t angle scale (length bs) st1 ->
  settled bs t angle scale (length bs) st2 -> st1 = st2.
Proof.
  intros Hl1 Hl2 Hs1 Hs2.
  assert (Hlt : forall n i, (i < n)%nat -> st1 !! i = st2 !! i).
  { induction n as [|n IH]; intros i Hi; [lia|].
    destruct (decide (i < length bs)%nat) as [Hin|Hout].
    - destruct (lookup_lt_is_Some_2 bs i Hin) as [b Hb].
      destruct (Hs1 i b Hin Hb) as [p1 [Hp1 He1]].
      destruct (Hs2 i b Hin Hb) as [p2 [Hp2 He2]].
      assert (p1 = p2) as ->.
      { destruct (Body.o b) as [j|] eqn:Ho; simpl in Hp1, Hp2.
        - pose proof (parents_first_lt bs parents_ok i b j Hb Ho) as Hj.
          rewrite (IH j ltac:(lia)) in Hp1. congruence.
        - congruence. }
      congruence.
    - rewrite !lookup_ge_None_2 by lia. reflexivity. }
  apply list_eq. intros i. apply (Hlt (S i)). lia.
Qed.
End Loop.

Lemma bodies_parents_first : parents_first bodies = true.
Proof. reflexivity. Qed.

Lemma length_bodies : length bodies = 14%nat.
Proof. reflexivity. Qed.

(** No division of the frame is by zero on the catalog of the code. *)
Lemma bodies_divisors_positive (i : nat) (b : Body.t) :
  bodies !! i = Some b ->
  0 < Body.p b /\ 0 < Body.r b /\ 0 < K.MAX_ORBIT * 2.
Proof.
  intros Hb.
  do 14 (destruct i as [|i];
         [simpl in Hb; injection Hb as <-; simpl;
          unfold K.MAX_ORBIT, K.S, K.E, K.M, K.J, K.SA, K.U, K.N; lra|]).
  discriminate Hb.
Qed.

(** What a frame leaves at index [i]: the update of body [i] from the
    position the same frame left at its parent's index. *)
Lemma update_positions_entry (bs : list Body.t) (t angle scale : R)
    (st : list St.t) :
  parents_first bs = true -> length st = length bs ->
  exists st', update_positions bs t angle scale st = Some st'
    /\ length st' = length bs
    /\ forall i b, bs !! i = Some b ->
         exists par, resolve_parent st' (Body.o b) = Some par
                  /\ st' !! i = Some (update_body t angle scale b par).
Proof.
  intros Hpf Hlen.
  destruct (update_positions_settled bs t angle scale Hpf st Hlen)
    as [st' [Hrun [Hlen' Hset]]].
  exists st'. split; [exact Hrun|]. split; [exact Hlen'|].
  intros i b Hb. apply Hset; [|exact Hb].
  apply lookup_lt_Some in Hb. exact Hb.
Qed.

Lemma orbit_phase (t p off : R) : orbit t p off = cos (2 * PI * t / p + off).
Proof. unfold orbit. f_equal. unfold Rdiv. ring. Qed.

Lemma orbit_period (t p off : R) : orbit (t + p) p off = orbit t p off.
Proof.
  destruct (Req_dec p 0) as [->|Hp]; [rewrite Rplus_0_r; reflexivity|].
  unfold orbit.
  replace ((t + p) / p * 2 * PI + off) with (t / p * 2 * PI + off + 2 * PI)
    by (field; exact Hp).
  rewrite cos_plus, cos_2PI, sin_2PI. ring.
Qed.

(** The scenario of a body of period 100: at [t = 0] it is at its largest
    offset along the first axis, a quarter period later that offset is 0. *)
Example orbit_at_0 : orbit 0 100 0 = 1.
Proof.
  unfold orbit. replace (0 / 100 * 2 * PI + 0) with 0 by field. apply cos_0.
Qed.

Example orbit_at_quarter : orbit 25 100 0 = 0.
Proof.
  unfold orbit. replace (25 / 100 * 2 * PI + 0) with (PI / 2) by field.
  apply cos_PI2.
Qed.

(** C5. Determinism of the per-frame state computation: for a catalog whose
    parents come first (as [bodies] is written), and fixed time, viewing
    angle and scale, the update loop succeeds and produces the same array
    whatever the [state] array held before. *)
Theorem update_positions_deterministic (bs : list Body.t) (t angle scale : R)
    (st1 st2 : list St.t) :
  parents_first bs = true ->
  length st1 = length bs -> length st2 = length bs ->
  exists st', update_positions bs t angle scale st1 = Some st'
           /\ update_positions bs t angle scale st2 = Some st'.
Proof.
  intros Hpf H1 H2.
  destruct (update_positions_settled bs t angle scale Hpf st1 H1)
    as [a [Ha [Hla Hsa]]].
  destruct (update_positions_settled bs t angle scale Hpf st2 H2)
    as [b [Hb [Hlb Hsb]]].
  exists a. split; [exact Ha|].
  rewrite Hb. f_equal.
  exact (settled_unique bs t angle scale Hpf b a Hlb Hla Hsb Hsa).
Qed.

Lemma update_positions_deterministic_witness :
  exists st',
    update_positions bodies 9e5 (-0.3) 1 state0 = Some st'
    /\ update_positions bodies 9e5 (-0.3) 1
         (map (fun _ => St.mk 1 2 3 4 5) bodies) = Some st'.
Proof.
  apply (update_positions_deterministic bodies); reflexivity.
Defined.

(** C1. Parent tracking: after a frame, the position of a satellite minus
    the position of its parent is
    [(d*scale*cos(2πt/p), sin(angle)*d*scale*cos(2πt/p + π/2),
      cos(angle)*d*scale*cos(2πt/p + π/2))]
    with [d] and [p] the satellite's own; the parent's position does not
    occur in it. *)
Theorem satellite_offset (bs : list Body.t) (t angle scale : R)
    (st : list St.t) (i j : nat) (b : Body.t) :
  parents_first bs = true -> length st = length bs ->
  bs !! i = Some b -> Body.o b = Some j ->
  exists st' s sp,
    update_positions bs t angle scale st = Some st'
    /\ st' !! i = Some s /\ st' !! j = Some sp
    /\ St.x s - St.x sp
       = Body.d b * scale * cos (2 * PI * t / Body.p b)
    /\ St.y s - St.y sp
       = sin angle * Body.d b * scale * cos (2 * PI * t / Body.p b + PI / 2)
    /\ St.z s - St.z sp
       = cos angle * Body.d b * scale * cos (2 * PI * t / Body.p b + PI / 2).
Proof.
  intros Hpf Hlen Hb Ho.
  destruct (update_positions_entry bs t angle scale st Hpf Hlen)
    as [st' [Hrun [_ Hent]]].
  destruct (Hent i b Hb) as [par [Hpar Hs]].
  rewrite Ho in Hpar. simpl in Hpar.
  destruct (st' !! j) as [sp|] eqn:Hsp; [|discriminate].
  simpl in Hpar. injection Hpar as <-.
  exists st', (update_body t angle scale b (St.pos sp)), sp.
  split; [exact Hrun|]. split; [exact Hs|]. split; [exact Hsp|].
  unfold update_body, St.pos. simpl.
  rewrite !orbit_phase. rewrite Rplus_0_r.
  repeat split; ring.
Qed.

Lemma satellite_offset_witness :
  exists st' s sp,
    update_positions bodies 9e5 (-0.3) 1 state0 = Some st'
    /\ st' !! 4%nat = Some s /\ st' !! 3%nat = Some sp
    /\ St.x s - St.x sp
       = Body.d moon * 1 * cos (2 * PI * 9e5 / Body.p moon)
    /\ St.y s - St.y sp
       = sin (-0.3) * Body.d moon * 1
         * cos (2 * PI * 9e5 / Body.p moon + PI / 2)
    /\ St.z s - St.z sp
       = cos (-0.3) * Body.d moon * 1
         * cos (2 * PI * 9e5 / Body.p moon + PI / 2).
Proof.
  apply (satellite_offset bodies 9e5 (-0.3) 1 state0 4 3 moon); reflexivity.
Defined.

(** C6. Periodicity: a body without a parent, of period [P], is left at the
    same position by a frame at time [t] and by a frame at time [t + P],
    whatever the [state] array held before either frame. *)
Theorem central_periodic (bs : list Body.t) (t angle scale : R)
    (st1 st2 : list St.t) (i : nat) (b : Body.t) :
  parents_first bs = true ->
  length st1 = length bs -> length st2 = length bs ->
  bs !! i = Some b -> Body.o b = None ->
  exists st1' st2' s1 s2,
    update_positions bs t angle scale st1 = Some st1'
    /\ update_positions bs (t + Body.p b) angle scale st2 = Some st2'
    /\ st1' !! i = Some s1 /\ st2' !! i = Some s2
    /\ St.pos s1 = St.pos s2.
Proof.
  intros Hpf H1 H2 Hb Ho.
  destruct (update_positions_entry bs t angle scale st1 Hpf H1)
    as [a [Ha [_ Hea]]].
  destruct (update_positions_entry bs (t + Body.p b) angle scale st2 Hpf H2)
    as [c [Hc [_ Hec]]].
  destruct (Hea i b Hb) as [pa [Hpa Hsa]].
  destruct (Hec i b Hb) as [pc [Hpc Hsc]].
  rewrite Ho in Hpa, Hpc. simpl in Hpa, Hpc.
  injection Hpa as <-. injection Hpc as <-.
  exists a, c, (update_body t angle scale b (0, 0, 0)),
    (update_body (t + Body.p b) angle scale b (0, 0, 0)).
  repeat (split; [assumption|]).
  unfold St.pos, update_body. simpl.
  rewrite !orbit_period. reflexivity.
Qed.

Lemma central_periodic_witness :
  exists st1' st2' s1 s2,
    update_positions bodies 9e5 (-0.3) 1 state0 = Some st1'
    /\ update_positions bodies (9e5 + Body.p sun) (-0.3) 1
         (map (fun _ => St.mk 1 2 3 4 5) bodies) = Some st2'
    /\ st1' !! 0%nat = Some s1 /\ st2' !! 0%nat = Some s2
    /\ St.pos s1 = St.pos s2.
Proof.
  apply (central_periodic bodies 9e5 (-0.3) 1 state0
           (map (fun _ => St.mk 1 2 3 4 5) bodies) 0 sun); reflexivity.
Defined.

(** C10. The central body, entry 0 of [bodies] with orbit distance 0 and no
    parent, is left at exactly [(0, 0, 0)] by every frame, at every time,
    viewing angle and scale factor; every other body names a parent, so all
    positions are offsets from this origin. *)
Theorem sun_at_origin (t angle scale : R) (st : list St.t) :
  length st = length bodies ->
  bodies !! 0%nat = Some sun /\ Body.d sun = 0 /\ Body.o sun = None
  /\ (forall i b, bodies !! i = Some b -> Body.o b = None -> i = 0%nat)
  /\ exists st' s,
       update_positions bodies t angle scale st = Some st'
       /\ st' !! 0%nat = Some s /\ St.pos s = (0, 0, 0).
Proof.
  intros Hlen. do 3 (split; [reflexivity|]). split.
  { intros i b Hb Ho. destruct i as [|i]; [reflexivity|exfalso].
    do 13 (destruct i as [|i];
           [simpl in Hb; injection Hb as <-; discriminate Ho|]).
    discriminate Hb. }
  destruct (update_positions_entry bodies t angle scale st
              bodies_parents_first Hlen) as [st' [Hrun [_ Hent]]].
  destruct (Hent 0%nat sun eq_refl) as [par [Hpar Hs]].
  simpl in Hpar. injection Hpar as <-.
  exists st', (update_body t angle scale sun (0, 0, 0)).
  split; [exact Hrun|]. split; [exact Hs|].
  unfold St.pos, update_body. simpl.
  repeat f_equal; ring.
Qed.

Lemma sun_at_origin_witness :
  bodies !! 0%nat = Some sun /\ Body.d sun = 0 /\ Body.o sun = None
  /\ (forall i b, bodies !! i = Some b -> Body.o b = None -> i = 0%nat)
  /\ exists st' s,
       update_positions bodies 9e5 (-0.3) 1 state0 = Some st'
       /\ st' !! 0%nat = Some s /\ St.pos s = (0, 0, 0).
Proof. apply (sun_at_origin 9e5 (-0.3) 1 state0). reflexivity. Defined.

(** C2. Radius floor: for every body and every scale factor, however small,
    the screen radius a frame computes is [max(floor, r * scale)], hence at
    least the body's floor; the floor is 0.51 for a body without a parent
    and 0.5 for a satellite, and 0.5 < 0.51. *)
Theorem radius_floor (bs : list Body.t) (t angle scale : R)
    (st : list St.t) (i : nat) (b : Body.t) :
  parents_first bs = true -> length st = length bs -> bs !! i = Some b ->
  (exists st' s,
     update_positions bs t angle scale st = Some st'
     /\ st' !! i = Some s
     /\ St.r s = Rmax (floor_of b) (Body.r b * scale)
     /\ floor_of b <= St.r s)
  /\ (Body.o b = None -> floor_of b = 0.51)
  /\ (Body.o b <> None -> floor_of b = 0.5)
  /\ 0.5 < 0.51.
Proof.
  intros Hpf Hlen Hb. split; [|split; [|split]].
  - destruct (update_positions_entry bs t angle scale st Hpf Hlen)
      as [st' [Hrun [_ Hent]]].
    destruct (Hent i b Hb) as [par [_ Hs]].
    exists st', (update_body t angle scale b par).
    split; [exact Hrun|]. split; [exact Hs|].
    destruct par as [[px py] pz]. simpl.
    split; [reflexivity|]. apply Rmax_l.
  - unfold floor_of. intros ->. reflexivity.
  - unfold floor_of. destruct (Body.o b); [reflexivity|congruence].
  - lra.
Qed.

Lemma radius_floor_witness :
  (exists st' s,
     update_positions bodies 9e5 (-0.3) (1 / 1000000) state0 = Some st'
     /\ st' !! 4%nat = Some s
     /\ St.r s = Rmax (floor_of moon) (Body.r moon * (1 / 1000000))
     /\ floor_of moon <= St.r s)
  /\ (Body.o moon = None -> floor_of moon = 0.51)
  /\ (Body.o moon <> None -> floor_of moon = 0.5)
  /\ 0.5 < 0.51.
Proof.
  apply (radius_floor bodies 9e5 (-0.3) (1 / 1000000) state0 4 moon);
    reflexivity.
Defined.

(** ** The depth sort *)

Section SortFacts.
Context {A : Type} (cmp : A -> A -> R).

Lemma insert_by_perm (a : A) (l : list A) :
  Permutation (insert_by cmp a l) (a :: l).
Proof.
  induction l as [|b l IH]; simpl; [reflexivity|].
  destruct (Rlt_dec 0 (cmp a b)); [|reflexivity].
  rewrite IH. apply perm_swap.
Qed.

Lemma sort_by_perm (l : list A) : Permutation (sort_by cmp l) l.
Proof.
  induction l as [|a l IH]; simpl; [reflexivity|].
  rewrite insert_by_perm. rewrite IH. reflexivity.
Qed.

(** A list no element of which has to move behind a later one is left as
    it is. *)
Lemma sort_by_in_order (l : list A) :
  StronglySorted (fun a b => ~ 0 < cmp a b) l -> sort_by cmp l = l.
Proof.
  induction 1 as [|a l Hl IH Ha]; simpl; [reflexivity|].
  fold (sort_by cmp l). rewrite IH.
  destruct l as [|b l']; simpl; [reflexivity|].
  destruct (Rlt_dec 0 (cmp a b)) as [Hlt|]; [|reflexivity].
  inversion Ha; subst. contradiction.
Qed.
End SortFacts.

Lemma StronglySorted_weaken {A : Type} (P Q : A -> A -> Prop) (l : list A) :
  (forall a b, P a b -> Q a b) -> StronglySorted P l -> StronglySorted Q l.
Proof.
  intros HPQ. induction 1 as [|a l Hl IH Ha]; constructor; [exact IH|].
  eapply Forall_impl; [exact Ha|]. intros b. apply HPQ.
Qed.

Lemma StronglySorted_both {A : Type} (P Q : A -> A -> Prop) (l : list A) :
  StronglySorted P l -> StronglySorted Q l ->
  StronglySorted (fun a b => P a b /\ Q a b) l.
Proof.
  induction 1 as [|a l Hl IH Ha]; intros HQ; constructor.
  - apply IH. inversion HQ; assumption.
  - inversion HQ as [|? ? ? Hb]; subst.
    rewrite Forall_forall in *. intros b Hin. split; auto.
Qed.

Lemma painted_before_antisym (a b : St.t * nat) :
  painted_before a b -> painted_before b a -> a = b.
Proof.
  unfold painted_before, farther_or_equal, keeps_catalog_order.
  intros [H1 H2] [H3 H4].
  assert (Heq : St.z a.1 = St.z b.1) by lra.
  specialize (H2 Heq). specialize (H4 (eq_sym Heq)). lia.
Qed.

Lemma insert_painted_before (a : St.t * nat) (l : list (St.t * nat)) :
  StronglySorted painted_before l ->
  Forall (fun b => (a.2 < b.2)%nat) l ->
  StronglySorted painted_before (insert_by by_depth a l).
Proof.
  induction 1 as [|b l Hl IH Hb]; intros Hidx; simpl.
  - repeat constructor.
  - inversion Hidx as [|? ? Hab Hal]; subst.
    destruct (Rlt_dec 0 (by_depth a b)) as [Hlt|Hge]; unfold by_depth in *.
    + constructor; [apply IH; exact Hal|].
      rewrite (insert_by_perm by_depth a l). constructor; [|exact Hb].
      split; [unfold farther_or_equal; lra|].
      unfold keeps_catalog_order. intros Heq. lra.
    + constructor; [constructor; assumption|].
      constructor.
      * split; [unfold farther_or_equal; lra|]. intros _. exact Hab.
      * rewrite Forall_forall in *. intros c Hc.
        destruct (Hb c Hc) as [Hz _]. unfold farther_or_equal in Hz.
        split; [unfold farther_or_equal; lra|].
        intros _. apply Hal. exact Hc.
Qed.

Lemma sort_painted_before (l : list (St.t * nat)) :
  StronglySorted (fun a b => (a.2 < b.2)%nat) l ->
  StronglySorted painted_before (sort_by by_depth l).
Proof.
  induction 1 as [|a l Hl IH Ha]; simpl; [constructor|].
  apply insert_painted_before; [exact IH|].
  fold (sort_by by_depth l). rewrite (sort_by_perm by_depth l). exact Ha.
Qed.

Lemma imap_index_increasing (k : nat) (st : list St.t) :
  StronglySorted (fun a b : St.t * nat => (a.2 < b.2)%nat)
                 (imap (fun i s => (s, (k + i)%nat)) st).
Proof.
  revert k. induction st as [|s st IH]; intros k; [constructor|].
  rewrite imap_cons.
  rewrite (imap_ext _ (fun i s => (s, (S k + i)%nat)))
    by (intros; simpl; f_equal; lia).
  constructor; [apply IH|].
  rewrite Forall_forall. intros [s' i'] Hin.
  apply elem_of_lookup_imap_1 in Hin as [i [y [Heq _]]].
  injection Heq as -> ->. simpl. lia.
Qed.

Lemma indexed_increasing (st : list St.t) :
  StronglySorted (fun a b : St.t * nat => (a.2 < b.2)%nat) (indexed st).
Proof. exact (imap_index_increasing 0 st). Qed.

(** A stable arrangement by descending depth of given entries is
    unique: whatever stable algorithm the host's [sort] runs, it returns
    the list [sort_by] computes. *)
Lemma stable_sorted_unique (l1 l2 : list (St.t * nat)) :
  Permutation l1 l2 ->
  StronglySorted painted_before l1 -> StronglySorted painted_before l2 ->
  l1 = l2.
Proof.
  intros Hp H1 H2.
  apply (StronglySorted_unique_strong painted_before); try assumption.
  intros a b _ _. apply painted_before_antisym.
Qed.

(** Three entries at depths 1, 3, 1: the farthest first, then the two at
    depth 1 in catalog order. *)
Example depth_sorted_example :
  depth_sorted [St.mk 0 0 1 0 0; St.mk 0 0 3 0 0; St.mk 0 0 1 0 0]
  = [(St.mk 0 0 3 0 0, 1%nat); (St.mk 0 0 1 0 0, 0%nat);
     (St.mk 0 0 1 0 0, 2%nat)].
Proof.
  unfold depth_sorted, indexed, sort_by. simpl. unfold by_depth. simpl.
  repeat (destruct (Rlt_dec _ _); try lra; simpl).
  reflexivity.
Qed.

(** The depth order holds the entries of [state], each with its index, and
    nothing else. *)
Lemma in_depth_sorted (st : list St.t) (i : nat) (s : St.t) :
  In (s, i) (depth_sorted st) <-> st !! i = Some s.
Proof.
  pose proof (sort_by_perm by_depth (indexed st)) as Hperm.
  fold (depth_sorted st) in Hperm.
  rewrite <- list_elem_of_In, Hperm. unfold indexed. split.
  - intros Hin. apply elem_of_lookup_imap_1 in Hin as (k & y & Heq & Hk).
    injection Heq as -> ->. exact Hk.
  - intros Hs. apply (elem_of_lookup_imap_2 (fun i s => (s, i))). exact Hs.
Qed.

Lemma length_depth_sorted (st : list St.t) :
  length (depth_sorted st) = length st.
Proof.
  unfold depth_sorted.
  rewrite (Permutation_length (sort_by_perm by_depth (indexed st))).
  unfold indexed. apply length_imap.
Qed.

(** C3. Each frame the full set of entries of [state] is sorted: the
    sorted list has one element for every entry, paired with its catalog
    index, and no other; it is ordered by descending [z]; entries of equal
    [z] keep their catalog order; sorting the result again changes nothing,
    and every stable descending arrangement of the same entries is this
    one, so the same state always gives the same draw order. *)
Theorem depth_sort_stable (st : list St.t) :
  (forall i s, st !! i = Some s <-> In (s, i) (depth_sorted st))
  /\ length (depth_sorted st) = length st
  /\ Permutation (depth_sorted st) (indexed st)
  /\ StronglySorted farther_or_equal (depth_sorted st)
  /\ StronglySorted keeps_catalog_order (depth_sorted st)
  /\ sort_by by_depth (depth_sorted st) = depth_sorted st
  /\ forall l, Permutation l (indexed st) ->
       StronglySorted farther_or_equal l ->
       StronglySorted keeps_catalog_order l ->
       l = depth_sorted st.
Proof.
  pose proof (sort_painted_before (indexed st) (indexed_increasing st)) as Hs.
  fold (depth_sorted st) in Hs.
  split; [intros i s; symmetry; apply in_depth_sorted|].
  split; [apply length_depth_sorted|].
  split; [apply sort_by_perm|].
  split.
  { eapply StronglySorted_weaken; [|exact Hs]. intros a b [H _]. exact H. }
  split.
  { eapply StronglySorted_weaken; [|exact Hs]. intros a b [_ H]. exact H. }
  split.
  - apply sort_by_in_order.
    eapply StronglySorted_weaken; [|exact Hs].
    intros a b [H _]. unfold farther_or_equal in H. unfold by_depth. lra.
  - intros l Hp Hf Hk. apply stable_sorted_unique; [| |exact Hs].
    + rewrite Hp. symmetry. apply sort_by_perm.
    + apply StronglySorted_both; assumption.
Qed.

(** ** Ring occlusion *)

Lemma asin_nonneg (q : R) : 0 <= q <= 1 -> 0 <= asin q <= PI / 2.
Proof.
  intros [H0 H1]. split; [|apply asin_bound].
  destruct (Rle_or_lt 0 (asin q)) as [Hge|Hlt]; [exact Hge|exfalso].
  pose proof (asin_bound q) as [Hlo _].
  pose proof PI_RGT_0 as Hpi.
  assert (Hsin : sin (asin q) < 0) by (apply sin_lt_0_var; lra).
  rewrite sin_asin in Hsin by lra. lra.
Qed.

Lemma cos_angle_bounds : 0 < cos (-0.3) <= 1.
Proof.
  pose proof PI2_1 as Hpi. split.
  - apply cos_gt_0; lra.
  - apply COS_bound.
Qed.

(** For a ringed body of positive radius and ring radii, whose disc has a
    positive screen radius, the hidden arc lies in [[0, π]]. *)
Lemma hidden_arc_bounds (b : Body.t) (rg : R * R) (s : St.t) :
  0 < Body.r b -> 0 < rg.1 + rg.2 -> 0 < St.r s ->
  0 <= hidden_arc (-0.3) b rg s <= PI.
Proof.
  intros Hb Hrg Hs. pose proof PI_RGT_0 as Hpi. unfold hidden_arc.
  destruct (Rge_dec _ _) as [_|_]; [lra|].
  assert (Hring : 0 < ring_radius b rg s).
  { unfold ring_radius.
    assert (0 < St.r s / Body.r b) by (apply Rdiv_lt_0_compat; assumption).
    assert (0 < St.r s / Body.r b * (rg.1 + rg.2))
      by (apply Rmult_lt_0_compat; assumption).
    lra. }
  assert (Hq : 0 < St.r s / ring_radius b rg s)
    by (apply Rdiv_lt_0_compat; assumption).
  assert (Hmin : 0 <= Rmin 1 (St.r s / ring_radius b rg s) <= 1).
  { split; [apply Rmin_glb; lra|apply Rmin_l]. }
  pose proof (asin_nonneg _ Hmin) as [Ha0 Ha1].
  pose proof cos_angle_bounds as [Hc0 Hc1].
  split; [|nra].
  apply Rmult_le_pos; [|exact Ha0]. lra.
Qed.

Lemma ringed_bodies_positive (i : nat) (b : Body.t) (rg : R * R) :
  bodies !! i = Some b -> Body.ring b = Some rg ->
  0 < Body.r b /\ 0 < rg.1 /\ rg.1 < rg.2.
Proof.
  intros Hb Hrg.
  do 14 (destruct i as [|i];
         [simpl in Hb; injection Hb as <-; simpl in Hrg;
          try discriminate Hrg; injection Hrg as <-; simpl;
          unfold K.SA, K.U; lra|]).
  discriminate Hb.
Qed.

Lemma floor_of_pos (b : Body.t) : 0.5 <= floor_of b.
Proof. unfold floor_of. destruct (Body.o b); lra. Qed.

(** C4. Ring visibility bound: for every ringed body of [bodies], in every
    frame (any time, scale factor and earlier state, the viewing angle being
    the constant -0.3), the hidden arc is 0 or
    [cos(angle) * 2 * asin(min(1, discRadius / ringRadius))] and lies in
    [[0, π]]; the arc drawn from [(-π + hidden)/2] to [(3π - hidden)/2]
    therefore has a length between 0 and a full turn. *)
Theorem ring_hidden_arc_bounded (i : nat) (b : Body.t) (rg : R * R)
    (t scale : R) (st : list St.t) :
  bodies !! i = Some b -> Body.ring b = Some rg ->
  length st = length bodies ->
  exists st' s,
    update_positions bodies t (-0.3) scale st = Some st'
    /\ st' !! i = Some s
    /\ (hidden_arc (-0.3) b rg s = 0
        \/ hidden_arc (-0.3) b rg s
           = cos (-0.3) * 2 * asin (Rmin 1 (St.r s / ring_radius b rg s)))
    /\ 0 <= hidden_arc (-0.3) b rg s <= PI
    /\ 0 <= arc_end (hidden_arc (-0.3) b rg s)
            - arc_start (hidden_arc (-0.3) b rg s) <= 2 * PI.
Proof.
  intros Hb Hrg Hlen.
  destruct (update_positions_entry bodies t (-0.3) scale st
              bodies_parents_first Hlen) as [st' [Hrun [_ Hent]]].
  destruct (Hent i b Hb) as [par [_ Hs]].
  exists st', (update_body t (-0.3) scale b par).
  split; [exact Hrun|]. split; [exact Hs|].
  set (s := update_body t (-0.3) scale b par).
  assert (Hr : 0 < St.r s).
  { subst s. destruct par as [[px py] pz]. simpl.
    pose proof (floor_of_pos b).
    pose proof (Rmax_l (floor_of b) (Body.r b * scale)).
    lra. }
  destruct (ringed_bodies_positive i b rg Hb Hrg) as [Hbr [Hr1 Hr2]].
  pose proof (hidden_arc_bounds b rg s Hbr ltac:(lra) Hr) as Hbound.
  split.
  - unfold hidden_arc. destruct (Rge_dec _ _); [left|right]; reflexivity.
  - split; [exact Hbound|]. unfold arc_start, arc_end. lra.
Qed.

Lemma ring_hidden_arc_bounded_witness :
  exists st' s,
    update_positions bodies 9e5 (-0.3) 1 state0 = Some st'
    /\ st' !! 11%nat = Some s
    /\ (hidden_arc (-0.3) saturn (K.SA + 100, K.SA + 200) s = 0
        \/ hidden_arc (-0.3) saturn (K.SA + 100, K.SA + 200) s
           = cos (-0.3) * 2
             * asin (Rmin 1 (St.r s
                 / ring_radius saturn (K.SA + 100, K.SA + 200) s)))
    /\ 0 <= hidden_arc (-0.3) saturn (K.SA + 100, K.SA + 200) s <= PI
    /\ 0 <= arc_end (hidden_arc (-0.3) saturn (K.SA + 100, K.SA + 200) s)
            - arc_start (hidden_arc (-0.3) saturn (K.SA + 100, K.SA + 200) s)
         <= 2 * PI.
Proof.
  apply (ring_hidden_arc_bounded 11 saturn); reflexivity.
Defined.

(** ** Drawing a frame *)

Lemma draws_disc_iff (b : Body.t) (s : St.t) :
  draws_disc b s = true <-> (St.r s > 0.5 \/ Body.o b = None).
Proof.
  unfold draws_disc. destruct (Rgt_dec (St.r s) 0.5) as [Hgt|Hle].
  - split; auto.
  - destruct (Body.o b); split; try discriminate; auto.
    intros [H|H]; [contradiction|discriminate].
Qed.

Lemma draw_body_disc (bs : list Body.t) (angle cx cy : R)
    (obj : St.t * nat) (l : list Cmd) (i : nat) :
  draw_body bs angle cx cy obj = Some l ->
  (exists x y r, In (Disc i x y r) l)
  <-> (i = obj.2 /\ exists b, bs !! i = Some b /\ draws_disc b obj.1 = true).
Proof.
  unfold draw_body. destruct (bs !! obj.2) as [b|] eqn:Hb; [|discriminate].
  simpl. intros [= <-]. split.
  - intros (x & y & r & Hin). apply in_app_or in Hin as [Hin|Hin].
    + destruct (draws_disc b obj.1) eqn:Hd; [|destruct Hin].
      destruct Hin as [[= <- _ _ _]|[]]. split; [reflexivity|]. eauto.
    + destruct (Body.ring b); [|destruct Hin].
      destruct Hin as [Heq|[]]. discriminate Heq.
  - intros [-> (b' & Hb' & Hd)].
    assert (b' = b) by congruence. subst b'. rewrite Hd.
    do 3 eexists. apply in_or_app. left. left. reflexivity.
Qed.

(** Drawing never fails on entries whose indices lie in the catalog, and it
    issues a disc for body [i] exactly when the test of globes.js:78
    passes on the entry of [i]. *)
Lemma draw_bodies_disc (bs : list Body.t) (angle cx cy : R)
    (st : list St.t) :
  length st = length bs ->
  exists cmds,
    draw_bodies bs angle cx cy (depth_sorted st) = Some cmds
    /\ forall i b s, bs !! i = Some b -> st !! i = Some s ->
         ((exists x y r, In (Disc i x y r) cmds) <-> draws_disc b s = true).
Proof.
  intros Hlen.
  pose proof (sort_by_perm by_depth (indexed st)) as Hperm.
  fold (depth_sorted st) in Hperm.
  assert (Hidx : forall obj, obj ∈ depth_sorted st ->
                   st !! obj.2 = Some obj.1).
  { intros obj Hin. rewrite Hperm in Hin.
    apply elem_of_lookup_imap_1 in Hin as (k & s & -> & Hk). exact Hk. }
  assert (Hsome : is_Some (mapM (draw_body bs angle cx cy) (depth_sorted st))).
  { apply mapM_is_Some_2. rewrite Forall_forall. intros obj Hin.
    apply Hidx in Hin. apply lookup_lt_Some in Hin.
    destruct (lookup_lt_is_Some_2 bs obj.2 ltac:(lia)) as [b Hb].
    unfold compose, draw_body. rewrite Hb. simpl. eauto. }
  destruct Hsome as [cmdss Hmap].
  exists (concat cmdss). split.
  { unfold draw_bodies. rewrite Hmap. reflexivity. }
  apply mapM_Some_1 in Hmap.
  intros i b s Hb Hs. split.
  - intros (x & y & r & Hin).
    apply in_concat in Hin as (l & Hl & Hin).
    rewrite <- list_elem_of_In in Hl.
    apply list_elem_of_lookup in Hl as [n Hn].
    destruct (Forall2_lookup_r _ _ _ _ _ Hmap Hn) as (obj & Hobj & Hdraw).
    destruct (proj1 (draw_body_disc bs angle cx cy obj l i Hdraw))
      as [-> (b' & Hb' & Hd)]; [eauto|].
    assert (Hobj' : obj ∈ depth_sorted st)
      by (eapply list_elem_of_lookup_2; eauto).
    apply Hidx in Hobj'.
    assert (b' = b) by congruence. assert (obj.1 = s) by congruence.
    subst. exact Hd.
  - intros Hd.
    assert (Hin : (s, i) ∈ depth_sorted st).
    { rewrite Hperm. apply (elem_of_lookup_imap_2 (fun i s => (s, i))).
      exact Hs. }
    apply list_elem_of_lookup in Hin as [n Hn].
    destruct (Forall2_lookup_l _ _ _ _ _ Hmap Hn) as (l & Hl & Hdraw).
    destruct (proj2 (draw_body_disc bs angle cx cy (s, i) l i Hdraw))
      as (x & y & r & Hin); [split; [reflexivity|]; eauto|].
    exists x, y, r. apply in_concat. exists l. split; [|exact Hin].
    rewrite <- list_elem_of_In. eapply list_elem_of_lookup_2; eauto.
Qed.

(** A frame over a [state] array of the catalog's length always completes:
    it stores the updated entries, advances the clock by [9e5] and queues
    the next frame. *)
Lemma draw_ok (dpr : R) (c : Cl.t) :
  length (Cl.state c) = length bodies ->
  exists st' cmds,
    update_positions bodies (Cl.time c) (Cl.angle c) (Cl.scale c) (Cl.state c)
      = Some st'
    /\ length st' = length bodies
    /\ draw_bodies bodies (Cl.angle c)
         (Cl.canvas_width c / dpr_or_1 dpr / 2)
         (Cl.canvas_height c / dpr_or_1 dpr / 2) (depth_sorted st')
       = Some cmds
    /\ draw dpr c
       = Some (Cl.mk (Cl.time c + 9e5) (Cl.angle c) (Cl.scale c) st'
                 (Cl.canvas_width c) (Cl.canvas_height c)
                 (Cl.attached c) (Cl.listening c) (S (Cl.queued c))
                 (ClearRect (Cl.canvas_width c / dpr_or_1 dpr)
                            (Cl.canvas_height c / dpr_or_1 dpr) :: cmds)).
Proof.
  intros Hlen.
  destruct (update_positions_entry bodies (Cl.time c) (Cl.angle c)
              (Cl.scale c) (Cl.state c) bodies_parents_first Hlen)
    as [st' [Hrun [Hlen' _]]].
  destruct (draw_bodies_disc bodies (Cl.angle c)
              (Cl.canvas_width c / dpr_or_1 dpr / 2)
              (Cl.canvas_height c / dpr_or_1 dpr / 2) st' Hlen')
    as [cmds [Hcmds _]].
  exists st', cmds. repeat (split; [assumption|]).
  unfold draw. rewrite Hrun. simpl. rewrite Hcmds. reflexivity.
Qed.

Lemma in_surface_disc (w h : R) (cmds : list Cmd) (i : nat) :
  (exists x y r, In (Disc i x y r) (ClearRect w h :: cmds))
  <-> (exists x y r, In (Disc i x y r) cmds).
Proof.
  split; intros (x & y & r & Hin); exists x, y, r.
  - destruct Hin as [Heq|Hin]; [discriminate Heq|exact Hin].
  - right. exact Hin.
Qed.

(** C9. In every frame the disc of a body is drawn exactly when its clamped
    screen radius [max(floor, r * scale)] is strictly greater than 0.5 or
    the body has no parent: a satellite whose radius is clamped to 0.5 is
    not drawn, the central body always is. *)
Theorem disc_drawn_iff (dpr : R) (c : Cl.t) (i : nat) (b : Body.t) :
  length (Cl.state c) = length bodies -> bodies !! i = Some b ->
  exists c' s,
    draw dpr c = Some c' /\ Cl.state c' !! i = Some s
    /\ St.r s = Rmax (floor_of b) (Body.r b * Cl.scale c)
    /\ ((exists x y r, In (Disc i x y r) (Cl.surface c'))
        <-> (St.r s > 0.5 \/ Body.o b = None))
    /\ (Body.o b <> None -> St.r s = 0.5 ->
        ~ exists x y r, In (Disc i x y r) (Cl.surface c'))
    /\ (Body.o b = None -> exists x y r, In (Disc i x y r) (Cl.surface c')).
Proof.
  intros Hlen Hb.
  destruct (update_positions_entry bodies (Cl.time c) (Cl.angle c)
              (Cl.scale c) (Cl.state c) bodies_parents_first Hlen)
    as [st' [Hrun [Hlen' Hent]]].
  destruct (Hent i b Hb) as [par [_ Hs]].
  destruct (draw_bodies_disc bodies (Cl.angle c)
              (Cl.canvas_width c / dpr_or_1 dpr / 2)
              (Cl.canvas_height c / dpr_or_1 dpr / 2) st' Hlen')
    as [cmds [Hcmds Hdisc]].
  specialize (Hdisc i b _ Hb Hs).
  eexists. exists (update_body (Cl.time c) (Cl.angle c) (Cl.scale c) b par).
  split.
  { unfold draw. rewrite Hrun. simpl. rewrite Hcmds. reflexivity. }
  cbn [Cl.state Cl.surface]. split; [exact Hs|].
  split; [destruct par as [[px py] pz]; reflexivity|].
  rewrite in_surface_disc, Hdisc, draws_disc_iff.
  split; [reflexivity|]. split.
  - intros Ho Hr [Hgt|Hnone]; [lra|contradiction].
  - intros Ho. right. exact Ho.
Qed.

Lemma disc_drawn_iff_witness :
  exists c' s,
    draw 1 (mounted (1000, 1000) 1) = Some c'
    /\ Cl.state c' !! 4%nat = Some s
    /\ St.r s = Rmax (floor_of moon)
                     (Body.r moon * Cl.scale (mounted (1000, 1000) 1))
    /\ ((exists x y r, In (Disc 4 x y r) (Cl.surface c'))
        <-> (St.r s > 0.5 \/ Body.o moon = None))
    /\ (Body.o moon <> None -> St.r s = 0.5 ->
        ~ exists x y r, In (Disc 4 x y r) (Cl.surface c'))
    /\ (Body.o moon = None -> exists x y r, In (Disc 4 x y r) (Cl.surface c')).
Proof.
  apply (disc_drawn_iff 1 (mounted (1000, 1000) 1) 4 moon); reflexivity.
Defined.

(** ** Resizing *)

Lemma Rmin_double (w h : R) : Rmin (2 * w) (2 * h) = 2 * Rmin w h.
Proof. unfold Rmin. destruct (Rle_dec w h), (Rle_dec (2 * w) (2 * h)); lra. Qed.

Lemma resize_scale_double (c : Cl.t) (w h dpr : R) :
  Cl.scale (resize (2 * w, 2 * h) dpr c) = 2 * Cl.scale (resize (w, h) dpr c).
Proof.
  unfold resize. simpl. rewrite Rmin_double. unfold K.MAX_ORBIT, K.S. field.
Qed.

(** C7, as the code has it. Doubling the container's width and height
    doubles the scale factor [resize] computes and, in the next frame, the
    scaled orbit distance [dr] of every body; the screen radius doubles for
    every body whose unclamped radius [r * scale] was at least its floor,
    and is [max(floor, 2 * r * scale)] in general.  The clock, and with it
    every orbital phase, is not touched by [resize]. *)
Theorem resize_doubles (c : Cl.t) (w h dpr : R) (i : nat) (b : Body.t) :
  length (Cl.state c) = length bodies -> bodies !! i = Some b ->
  Cl.scale (resize (2 * w, 2 * h) dpr c) = 2 * Cl.scale (resize (w, h) dpr c)
  /\ Cl.time (resize (w, h) dpr c) = Cl.time c
  /\ Cl.time (resize (2 * w, 2 * h) dpr c) = Cl.time c
  /\ (forall off, orbit (Cl.time (resize (2 * w, 2 * h) dpr c)) (Body.p b) off
                  = orbit (Cl.time (resize (w, h) dpr c)) (Body.p b) off)
  /\ exists c1 c2 s1 s2,
       draw dpr (resize (w, h) dpr c) = Some c1
       /\ draw dpr (resize (2 * w, 2 * h) dpr c) = Some c2
       /\ Cl.state c1 !! i = Some s1 /\ Cl.state c2 !! i = Some s2
       /\ St.dr s2 = 2 * St.dr s1
       /\ St.r s2
          = Rmax (floor_of b) (2 * (Body.r b * Cl.scale (resize (w, h) dpr c)))
       /\ (floor_of b <= Body.r b * Cl.scale (resize (w, h) dpr c) ->
           St.r s2 = 2 * St.r s1).
Proof.
  intros Hlen Hb.
  pose proof (resize_scale_double c w h dpr) as Hsc.
  split; [exact Hsc|]. do 3 (split; [reflexivity|]).
  assert (Hl1 : length (Cl.state (resize (w, h) dpr c)) = length bodies)
    by exact Hlen.
  assert (Hl2 : length (Cl.state (resize (2 * w, 2 * h) dpr c))
                = length bodies) by exact Hlen.
  revert Hsc Hl1 Hl2.
  generalize (resize (w, h) dpr c) as c1.
  generalize (resize (2 * w, 2 * h) dpr c) as c2.
  intros c2 c1 Hsc Hl1 Hl2.
  destruct (draw_ok dpr c1 Hl1) as (st1 & cmds1 & Hrun1 & _ & _ & Hdraw1).
  destruct (draw_ok dpr c2 Hl2) as (st2 & cmds2 & Hrun2 & _ & _ & Hdraw2).
  destruct (update_positions_entry bodies (Cl.time c1) (Cl.angle c1)
              (Cl.scale c1) (Cl.state c1) bodies_parents_first Hl1)
    as [st1' [Hrun1' [_ Hent1]]].
  destruct (update_positions_entry bodies (Cl.time c2) (Cl.angle c2)
              (Cl.scale c2) (Cl.state c2) bodies_parents_first Hl2)
    as [st2' [Hrun2' [_ Hent2]]].
  assert (st1' = st1) by congruence. assert (st2' = st2) by congruence.
  subst st1' st2'.
  destruct (Hent1 i b Hb) as [[[x1 y1] z1] [_ Hs1]].
  destruct (Hent2 i b Hb) as [[[x2 y2] z2] [_ Hs2]].
  eexists. eexists. do 2 eexists.
  split; [exact Hdraw1|]. split; [exact Hdraw2|]. cbn [Cl.state].
  split; [exact Hs1|]. split; [exact Hs2|].
  unfold update_body. cbn [St.dr St.r].
  rewrite Hsc. split; [ring|]. split; [f_equal; ring|].
  intros Hfl. pose proof (floor_of_pos b) as Hpos.
  rewrite (Rmax_right (floor_of b) (Body.r b * Cl.scale c1)) by exact Hfl.
  rewrite Rmax_right; [ring|]. lra.
Qed.

Lemma resize_doubles_witness :
  Cl.scale (resize (2 * 1000, 2 * 1000) 1 (mounted (1000, 1000) 1))
  = 2 * Cl.scale (resize (1000, 1000) 1 (mounted (1000, 1000) 1))
  /\ Cl.time (resize (1000, 1000) 1 (mounted (1000, 1000) 1))
     = Cl.time (mounted (1000, 1000) 1)
  /\ Cl.time (resize (2 * 1000, 2 * 1000) 1 (mounted (1000, 1000) 1))
     = Cl.time (mounted (1000, 1000) 1)
  /\ (forall off,
        orbit (Cl.time (resize (2 * 1000, 2 * 1000) 1 (mounted (1000, 1000) 1)))
              (Body.p mercury) off
        = orbit (Cl.time (resize (1000, 1000) 1 (mounted (1000, 1000) 1)))
                (Body.p mercury) off)
  /\ exists c1 c2 s1 s2,
       draw 1 (resize (1000, 1000) 1 (mounted (1000, 1000) 1)) = Some c1
       /\ draw 1 (resize (2 * 1000, 2 * 1000) 1 (mounted (1000, 1000) 1))
          = Some c2
       /\ Cl.state c1 !! 1%nat = Some s1 /\ Cl.state c2 !! 1%nat = Some s2
       /\ St.dr s2 = 2 * St.dr s1
       /\ St.r s2
          = Rmax (floor_of mercury)
              (2 * (Body.r mercury
                    * Cl.scale (resize (1000, 1000) 1
                                  (mounted (1000, 1000) 1))))
       /\ (floor_of mercury
           <= Body.r mercury
              * Cl.scale (resize (1000, 1000) 1 (mounted (1000, 1000) 1)) ->
           St.r s2 = 2 * St.r s1).
Proof.
  apply (resize_doubles (mounted (1000, 1000) 1) 1000 1000 1 1 mercury);
    reflexivity.
Defined.

Lemma mounted_scale_1000 : Cl.scale (mounted (1000, 1000) 1) = 1 / 13.
Proof.
  unfold mounted, resize. simpl. rewrite Rmin_left by lra.
  unfold K.MAX_ORBIT, K.S. field.
Qed.

Lemma resized_scale_2000 :
  Cl.scale (resize (2000, 2000) 1 (mounted (1000, 1000) 1)) = 2 / 13.
Proof.
  unfold resize. simpl. rewrite Rmin_left by lra.
  unfold K.MAX_ORBIT, K.S. field.
Qed.

(** The radius a frame leaves for the Moon, entry 4 of [bodies]. *)
Lemma moon_radius (c : Cl.t) :
  length (Cl.state c) = length bodies ->
  exists c' s, draw 1 c = Some c' /\ Cl.state c' !! 4%nat = Some s
            /\ St.r s = Rmax 0.5 (5 * Cl.scale c).
Proof.
  intros Hlen.
  destruct (draw_ok 1 c Hlen) as (st & cmds & Hrun & _ & _ & Hdraw).
  destruct (update_positions_entry bodies (Cl.time c) (Cl.angle c)
              (Cl.scale c) (Cl.state c) bodies_parents_first Hlen)
    as [st' [Hrun' [_ Hent]]].
  assert (st' = st) by congruence. subst st'.
  destruct (Hent 4%nat moon eq_refl) as [[[px py] pz] [_ Hs]].
  eexists. eexists. split; [exact Hdraw|]. split; [exact Hs|]. reflexivity.
Qed.

(** C7, as stated, fails on the Moon: mounted in a 1000x1000 container its
    radius is clamped to the floor 0.5; after the container is resized to
    2000x2000 the scale factor has doubled but the radius is 10/13, not 1. *)
Lemma moon_radius_not_doubled :
  Cl.scale (resize (2000, 2000) 1 (mounted (1000, 1000) 1))
  = 2 * Cl.scale (mounted (1000, 1000) 1)
  /\ exists c1 c2 s1 s2,
       draw 1 (mounted (1000, 1000) 1) = Some c1
       /\ draw 1 (resize (2000, 2000) 1 (mounted (1000, 1000) 1)) = Some c2
       /\ Cl.state c1 !! 4%nat = Some s1 /\ Cl.state c2 !! 4%nat = Some s2
       /\ St.r s1 = 0.5 /\ St.r s2 = 10 / 13
       /\ St.r s2 <> 2 * St.r s1.
Proof.
  split; [rewrite mounted_scale_1000, resized_scale_2000; lra|].
  destruct (moon_radius (mounted (1000, 1000) 1) eq_refl)
    as (c1 & s1 & Hd1 & Hs1 & Hr1).
  destruct (moon_radius (resize (2000, 2000) 1 (mounted (1000, 1000) 1))
              eq_refl) as (c2 & s2 & Hd2 & Hs2 & Hr2).
  rewrite mounted_scale_1000 in Hr1. rewrite resized_scale_2000 in Hr2.
  rewrite Rmax_left in Hr1 by lra. rewrite Rmax_right in Hr2 by lra.
  exists c1, c2, s1, s2. do 5 (split; [assumption|]).
  split; [rewrite Hr2; lra|]. rewrite Hr1, Hr2. lra.
Qed.

(** ** Teardown *)

(** While a frame is queued, display refreshes keep the loop going: each
    one draws, advances the clock and leaves one frame queued again; whether
    the canvas is attached or [resize] registered plays no part. *)
Lemma run_frames (dprs : list R) (c : Cl.t) :
  length (Cl.state c) = length bodies -> Cl.queued c = 1%nat ->
  exists c', run c (map Frame dprs) = Some c'
    /\ length (Cl.state c') = length bodies
    /\ Cl.queued c' = 1%nat
    /\ Cl.time c' = Cl.time c + 9e5 * INR (length dprs)
    /\ Cl.attached c' = Cl.attached c
    /\ Cl.listening c' = Cl.listening c.
Proof.
  revert c. induction dprs as [|dpr dprs IH]; intros c Hlen Hq.
  - exists c. simpl. repeat split; try reflexivity; try assumption. lra.
  - set (c0 := Cl.mk (Cl.time c) (Cl.angle c) (Cl.scale c) (Cl.state c)
                 (Cl.canvas_width c) (Cl.canvas_height c)
                 (Cl.attached c) (Cl.listening c) 0%nat (Cl.surface c)).
    destruct (draw_ok dpr c0 Hlen) as (st & cmds & _ & Hlen' & _ & Hdraw).
    match type of Hdraw with _ = Some ?x => set (c1 := x) in * end.
    destruct (IH c1 Hlen' eq_refl) as (c' & Hrun & Hl & Hq' & Ht & Ha & Hli).
    exists c'. split.
    { cbn [map run handle]. rewrite Hq. fold c0. rewrite Hdraw.
      simpl. exact Hrun. }
    repeat (split; [assumption|]).
    split; [|split; assumption].
    rewrite Ht. cbn [length]. rewrite S_INR. subst c1 c0. cbn [Cl.time]. ring.
Qed.

(** [resize], [draw] and the teardown function never assign [angle], and
    keep [state] as long as the catalog: every closure the host can reach
    from a mount views the scene at -0.3. *)
Lemma handle_invariant (c c' : Cl.t) (e : Event) :
  length (Cl.state c) = length bodies -> handle c e = Some c' ->
  Cl.angle c' = Cl.angle c /\ length (Cl.state c') = length bodies.
Proof.
  intros Hlen. destruct e as [dpr|rect dpr|]; simpl.
  - destruct (Cl.queued c) as [|n]; [intros [= <-]; auto|].
    match goal with |- draw dpr ?c0 = _ -> _ =>
      destruct (draw_ok dpr c0 Hlen) as (st & cmds & _ & Hl & _ & Hdraw)
    end.
    rewrite Hdraw. intros [= <-]. simpl. auto.
  - intros [= <-]. destruct (Cl.listening c); auto.
  - intros [= <-]. auto.
Qed.

Lemma reachable_invariant (rect : R * R) (dpr : R) (es : list Event)
    (c c' : Cl.t) :
  globes rect dpr = Some c -> run c es = Some c' ->
  Cl.angle c' = -0.3 /\ length (Cl.state c') = length bodies.
Proof.
  intros Hg.
  assert (H0 : Cl.angle c = -0.3 /\ length (Cl.state c) = length bodies).
  { destruct (draw_ok dpr (mounted rect dpr) eq_refl)
      as (st & cmds & _ & Hl & _ & Hdraw).
    unfold globes in Hg. rewrite Hdraw in Hg. injection Hg as <-. auto. }
  clear Hg. revert c H0. induction es as [|e es IH]; intros c [Ha Hl]; simpl.
  - intros [= <-]. auto.
  - destruct (handle c e) as [c1|] eqn:He; [|discriminate]. simpl.
    destruct (handle_invariant c c1 e Hl He) as [Ha1 Hl1].
    apply IH. split; [congruence|exact Hl1].
Qed.

(** C8, evaluated on the code. After [globes] has mounted the component
    and the teardown function has run, the listener is detached and the
    canvas removed, but the frame queued by the last [draw] is still
    queued, and every later display refresh draws again and queues another:
    the animation loop is not stopped. *)
Theorem teardown_leaves_loop_running (rect : R * R) (dpr : R)
    (dprs : list R) :
  exists c c',
    globes rect dpr = Some c
    /\ Cl.listening c = true /\ Cl.attached c = true
    /\ Cl.listening (teardown c) = false
    /\ Cl.attached (teardown c) = false
    /\ Cl.queued (teardown c) = 1%nat
    /\ run c (Teardown :: map Frame dprs) = Some c'
    /\ Cl.queued c' = 1%nat
    /\ Cl.time c' = Cl.time c + 9e5 * INR (length dprs).
Proof.
  destruct (draw_ok dpr (mounted rect dpr) eq_refl)
    as (st & cmds & _ & Hlen & _ & Hdraw).
  match type of Hdraw with _ = Some ?x => set (c := x) in * end.
  destruct (run_frames dprs (teardown c) Hlen eq_refl)
    as (c' & Hrun & _ & Hq & Ht & _ & _).
  exists c, c'. split; [exact Hdraw|].
  do 5 (split; [reflexivity|]).
  split; [exact Hrun|]. split; [exact Hq|]. exact Ht.
Qed.

(** * Further properties of the frame *)

(** ** What a frame issues *)

Lemma draw_body_cmds (bs : list Body.t) (angle cx cy : R) (obj : St.t * nat) :
  draw_body bs angle cx cy obj
  = (fun b => body_cmds angle cx cy obj.2 b obj.1) <$> bs !! obj.2.
Proof. unfold draw_body. destruct (bs !! obj.2); reflexivity. Qed.

(** The calls of a frame are, entry by entry of the depth order, the calls
    of [body_cmds]. *)
Lemma draw_bodies_concat (bs : list Body.t) (angle cx cy : R)
    (st : list St.t) :
  length st = length bs ->
  exists cmdss,
    draw_bodies bs angle cx cy (depth_sorted st) = Some (concat cmdss)
    /\ Forall2 (fun obj l =>
                  exists b, bs !! obj.2 = Some b /\ st !! obj.2 = Some obj.1
                         /\ l = body_cmds angle cx cy obj.2 b obj.1)
               (depth_sorted st) cmdss.
Proof.
  intros Hlen.
  pose proof (sort_by_perm by_depth (indexed st)) as Hperm.
  fold (depth_sorted st) in Hperm.
  assert (Hidx : forall obj, obj ∈ depth_sorted st ->
                   st !! obj.2 = Some obj.1).
  { intros obj Hin. rewrite Hperm in Hin.
    apply elem_of_lookup_imap_1 in Hin as (k & s & -> & Hk). exact Hk. }
  assert (Hsome : is_Some (mapM (draw_body bs angle cx cy) (depth_sorted st))).
  { apply mapM_is_Some_2. rewrite Forall_forall. intros obj Hin.
    apply Hidx in Hin. apply lookup_lt_Some in Hin.
    destruct (lookup_lt_is_Some_2 bs obj.2 ltac:(lia)) as [b Hb].
    unfold compose. rewrite draw_body_cmds, Hb. simpl. eauto. }
  destruct Hsome as [cmdss Hmap].
  exists cmdss. split.
  { unfold draw_bodies. rewrite Hmap. reflexivity. }
  apply mapM_Some_1 in Hmap.
  assert (Hall : Forall (fun obj => st !! obj.2 = Some obj.1)
                        (depth_sorted st))
    by (rewrite Forall_forall; exact Hidx).
  clear Hperm Hidx. revert Hall.
  induction Hmap as [|obj l objs ls Hd _ IH]; intros Hall.
  - constructor.
  - apply Forall_cons in Hall as [Hobj Hall].
    constructor; [|exact (IH Hall)].
    rewrite draw_body_cmds in Hd.
    destruct (bs !! obj.2) as [b|]; [|discriminate].
    simpl in Hd. injection Hd as <-. eauto.
Qed.

Lemma draw_bodies_in (bs : list Body.t) (angle cx cy : R) (st : list St.t)
    (cmdss : list (list Cmd)) (c : Cmd) :
  Forall2 (fun obj l =>
             exists b, bs !! obj.2 = Some b /\ st !! obj.2 = Some obj.1
                    /\ l = body_cmds angle cx cy obj.2 b obj.1)
          (depth_sorted st) cmdss ->
  In c (concat cmdss)
  <-> exists i b s, bs !! i = Some b /\ st !! i = Some s
                 /\ In c (body_cmds angle cx cy i b s).
Proof.
  intros HF. split.
  - intros Hin. apply in_concat in Hin as (l & Hl & Hin).
    rewrite <- list_elem_of_In in Hl.
    apply list_elem_of_lookup in Hl as [n Hn].
    destruct (Forall2_lookup_r _ _ _ _ _ HF Hn)
      as (obj & _ & b & Hb & Hs & ->).
    exists obj.2, b, obj.1. auto.
  - intros (i & b & s & Hb & Hs & Hin).
    assert (Hobj : (s, i) ∈ depth_sorted st).
    { unfold depth_sorted. rewrite (sort_by_perm by_depth (indexed st)).
      apply (elem_of_lookup_imap_2 (fun i s => (s, i))). exact Hs. }
    apply list_elem_of_lookup in Hobj as [n Hn].
    destruct (Forall2_lookup_l _ _ _ _ _ HF Hn)
      as (l & Hl & b' & Hb' & _ & ->).
    simpl in Hb'. assert (b' = b) by congruence. subst b'.
    apply in_concat. eexists. split; [|exact Hin].
    rewrite <- list_elem_of_In. eapply list_elem_of_lookup_2. exact Hl.
Qed.

(** Everything a frame does, in one place. *)
Lemma draw_frame (dpr : R) (c : Cl.t) :
  length (Cl.state c) = length bodies ->
  exists st cmdss,
    draw dpr c
    = Some (Cl.mk (Cl.time c + 9e5) (Cl.angle c) (Cl.scale c) st
              (Cl.canvas_width c) (Cl.canvas_height c)
              (Cl.attached c) (Cl.listening c) (S (Cl.queued c))
              (ClearRect (Cl.canvas_width c / dpr_or_1 dpr)
                         (Cl.canvas_height c / dpr_or_1 dpr)
               :: concat cmdss))
    /\ update_positions bodies (Cl.time c) (Cl.angle c) (Cl.scale c)
         (Cl.state c) = Some st
    /\ length st = length bodies
    /\ (forall i b, bodies !! i = Some b ->
          exists par, resolve_parent st (Body.o b) = Some par
            /\ st !! i = Some (update_body (Cl.time c) (Cl.angle c)
                                 (Cl.scale c) b par))
    /\ Forall2 (fun obj l =>
                  exists b, bodies !! obj.2 = Some b
                    /\ st !! obj.2 = Some obj.1
                    /\ l = body_cmds (Cl.angle c)
                             (Cl.canvas_width c / dpr_or_1 dpr / 2)
                             (Cl.canvas_height c / dpr_or_1 dpr / 2)
                             obj.2 b obj.1)
               (depth_sorted st) cmdss.
Proof.
  intros Hlen.
  destruct (update_positions_entry bodies (Cl.time c) (Cl.angle c)
              (Cl.scale c) (Cl.state c) bodies_parents_first Hlen)
    as [st [Hrun [Hlen' Hent]]].
  destruct (draw_bodies_concat bodies (Cl.angle c)
              (Cl.canvas_width c / dpr_or_1 dpr / 2)
              (Cl.canvas_height c / dpr_or_1 dpr / 2) st Hlen')
    as [cmdss [Hcmds HF]].
  exists st, cmdss. split; [|auto].
  unfold draw. rewrite Hrun. simpl. rewrite Hcmds. reflexivity.
Qed.

(** ** The animation loop over time *)

(** One event keeps the array as long as the catalog and exactly one frame
    queued; a display refresh advances the clock by [9e5], nothing else
    touches it. *)
Lemma handle_queue (c : Cl.t) (e : Event) :
  length (Cl.state c) = length bodies -> Cl.queued c = 1%nat ->
  exists c', handle c e = Some c'
    /\ length (Cl.state c') = length bodies
    /\ Cl.queued c' = 1%nat
    /\ Cl.time c' = Cl.time c + 9e5 * INR (frames [e]).
Proof.
  intros Hlen Hq. destruct e as [dpr|rect dpr|]; simpl.
  - rewrite Hq.
    match goal with |- exists _, draw dpr ?c0 = _ /\ _ =>
      destruct (draw_ok dpr c0 Hlen) as (st & cmds & _ & Hl & _ & Hdraw)
    end.
    rewrite Hdraw. eexists. split; [reflexivity|]. simpl.
    repeat split; [exact Hl|lra].
  - eexists. split; [reflexivity|].
    destruct (Cl.listening c); simpl; repeat split; try assumption; lra.
  - eexists. split; [reflexivity|]. simpl.
    repeat split; try assumption; lra.
Qed.

Lemma frames_cons (e : Event) (es : list Event) :
  INR (frames (e :: es)) = INR (frames [e]) + INR (frames es).
Proof.
  destruct e; simpl frames; try (simpl; lra).
  rewrite S_INR. simpl. lra.
Qed.

Lemma run_queue (es : list Event) (c : Cl.t) :
  length (Cl.state c) = length bodies -> Cl.queued c = 1%nat ->
  exists c', run c es = Some c'
    /\ length (Cl.state c') = length bodies
    /\ Cl.queued c' = 1%nat
    /\ Cl.time c' = Cl.time c + 9e5 * INR (frames es).
Proof.
  revert c. induction es as [|e es IH]; intros c Hlen Hq.
  - exists c. simpl. repeat split; try assumption. lra.
  - destruct (handle_queue c e Hlen Hq) as (c1 & He & Hl1 & Hq1 & Ht1).
    destruct (IH c1 Hl1 Hq1) as (c' & Hrun & Hl & Hq' & Ht).
    exists c'. split; [simpl; rewrite He; exact Hrun|].
    repeat (split; [assumption|]).
    rewrite Ht, Ht1, (frames_cons e es). ring.
Qed.

Lemma globes_first_frame (rect : R * R) (dpr : R) :
  exists c, globes rect dpr = Some c
    /\ length (Cl.state c) = length bodies
    /\ Cl.queued c = 1%nat /\ Cl.time c = 9e5
    /\ Cl.listening c = true /\ Cl.attached c = true
    /\ Cl.angle c = -0.3
    /\ Cl.scale c = Rmin rect.1 rect.2 / (K.MAX_ORBIT * 2).
Proof.
  destruct (draw_ok dpr (mounted rect dpr) eq_refl)
    as (st & cmds & _ & Hlen & _ & Hdraw).
  eexists. split; [exact Hdraw|]. simpl.
  repeat split; try assumption. lra.
Qed.

(** X1. Whatever the host does after the mount (refreshes, resizes,
    teardown, in any order) there is always exactly one frame queued: events
    never start a second loop and never end the one there is, and the clock
    reads [9e5] times the number of frames drawn. *)
Theorem one_frame_queued (rect : R * R) (dpr : R) (es : list Event) :
  exists c c',
    globes rect dpr = Some c /\ run c es = Some c'
    /\ Cl.queued c' = 1%nat
    /\ Cl.time c' = 9e5 * INR (S (frames es)).
Proof.
  destruct (globes_first_frame rect dpr)
    as (c & Hg & Hlen & Hq & Ht & _).
  destruct (run_queue es c Hlen Hq) as (c' & Hrun & _ & Hq' & Ht').
  exists c, c'. repeat (split; [assumption|]).
  rewrite Ht', Ht, S_INR. ring.
Qed.

(** Once the canvas is removed and [resize] no longer registered, no event
    brings either back, and scale and canvas size stay as they are. *)
Lemma run_detached (es : list Event) (c c' : Cl.t) :
  length (Cl.state c) = length bodies ->
  Cl.listening c = false -> Cl.attached c = false ->
  run c es = Some c' ->
  Cl.listening c' = false /\ Cl.attached c' = false
  /\ Cl.scale c' = Cl.scale c
  /\ Cl.canvas_width c' = Cl.canvas_width c
  /\ Cl.canvas_height c' = Cl.canvas_height c.
Proof.
  revert c. induction es as [|e es IH]; intros c Hlen Hl Ha; simpl.
  - intros [= <-]. auto.
  - destruct (handle c e) as [c1|] eqn:He; [|discriminate]. simpl.
    intros Hrun.
    destruct (handle_invariant c c1 e Hlen He) as [_ Hlen1].
    assert (H1 : Cl.listening c1 = false /\ Cl.attached c1 = false
                 /\ Cl.scale c1 = Cl.scale c
                 /\ Cl.canvas_width c1 = Cl.canvas_width c
                 /\ Cl.canvas_height c1 = Cl.canvas_height c).
    { destruct e as [dpr|rect dpr|]; simpl in He.
      - destruct (Cl.queued c) as [|n]; [injection He as <-; auto|].
        match type of He with draw dpr ?c0 = _ =>
          destruct (draw_ok dpr c0 Hlen) as (st & cmds & _ & _ & _ & Hdraw)
        end.
        rewrite Hdraw in He. injection He as <-. simpl. auto.
      - rewrite Hl in He. injection He as <-. auto.
      - injection He as <-. simpl. auto. }
    destruct H1 as (Hl1 & Ha1 & Hs1 & Hw1 & Hh1).
    destruct (IH c1 Hlen1 Hl1 Ha1 Hrun) as (Hl' & Ha' & Hs' & Hw' & Hh').
    repeat split; congruence.
Qed.

Lemma run_app (es1 es2 : list Event) (c : Cl.t) :
  run c (es1 ++ es2) = c1 ← run c es1; run c1 es2.
Proof.
  revert c. induction es1 as [|e es1 IH]; intros c; simpl; [reflexivity|].
  destruct (handle c e) as [c1|]; simpl; [apply IH|reflexivity].
Qed.

(** X2. Once the teardown function has run, at whatever point of the
    component's life (after any frames and resizes), resize events are
    ignored for good: whatever events follow, the listener stays detached,
    the canvas stays removed, and scale factor and canvas size keep the
    values they had when teardown ran. *)
Theorem resize_ignored_after_teardown (rect : R * R) (dpr : R)
    (es1 es2 : list Event) :
  exists c c1 c',
    globes rect dpr = Some c /\ run c es1 = Some c1
    /\ run c (es1 ++ Teardown :: es2) = Some c'
    /\ Cl.listening c' = false /\ Cl.attached c' = false
    /\ Cl.scale c' = Cl.scale c1
    /\ Cl.canvas_width c' = Cl.canvas_width c1
    /\ Cl.canvas_height c' = Cl.canvas_height c1.
Proof.
  destruct (globes_first_frame rect dpr)
    as (c & Hg & Hlen & Hq & _).
  destruct (run_queue es1 c Hlen Hq) as (c1 & Hrun1 & Hlen1 & Hq1 & _).
  destruct (run_queue es2 (teardown c1) Hlen1 Hq1) as (c' & Hrun2 & _).
  exists c, c1, c'. split; [exact Hg|]. split; [exact Hrun1|].
  split; [rewrite run_app, Hrun1; exact Hrun2|].
  exact (run_detached es2 (teardown c1) c' Hlen1 eq_refl eq_refl Hrun2).
Qed.

(** While no teardown has happened the listener stays registered and the
    canvas attached. *)
Lemma run_mounted (es : list Event) (c c' : Cl.t) :
  length (Cl.state c) = length bodies ->
  Cl.listening c = true -> Cl.attached c = true ->
  ~ In Teardown es -> run c es = Some c' ->
  Cl.listening c' = true /\ Cl.attached c' = true
  /\ length (Cl.state c') = length bodies.
Proof.
  revert c. induction es as [|e es IH]; intros c Hlen Hl Ha Hnt; simpl.
  - intros [= <-]. auto.
  - destruct (handle c e) as [c1|] eqn:He; [|discriminate]. simpl.
    intros Hrun.
    destruct (handle_invariant c c1 e Hlen He) as [_ Hlen1].
    assert (H1 : Cl.listening c1 = true /\ Cl.attached c1 = true).
    { destruct e as [dpr|rect dpr|]; simpl in He.
      - destruct (Cl.queued c) as [|n]; [injection He as <-; auto|].
        match type of He with draw dpr ?c0 = _ =>
          destruct (draw_ok dpr c0 Hlen) as (st & cmds & _ & _ & _ & Hdraw)
        end.
        rewrite Hdraw in He. injection He as <-. simpl. auto.
      - rewrite Hl in He. injection He as <-. auto.
      - exfalso. apply Hnt. left. reflexivity. }
    destruct H1 as [Hl1 Ha1].
    apply (IH c1 Hlen1 Hl1 Ha1); [|exact Hrun].
    intros Hin. apply Hnt. right. exact Hin.
Qed.

(** Below 2^31 a canvas keeps the whole part of the size it is given. *)
Lemma canvas_size_floor (default : Z) (v : R) :
  0 <= v < 2147483648 ->
  canvas_size default v = IZR (Int_part v)
  /\ v - 1 < canvas_size default v <= v.
Proof.
  intros [H0 H1]. pose proof (base_Int_part v) as [Hle Hgt].
  assert (Hn0 : (0 <= Int_part v)%Z).
  { assert (IZR (-1) < IZR (Int_part v)) by lra.
    apply lt_IZR in H. lia. }
  assert (Hn1 : (Int_part v < 2147483648)%Z).
  { apply lt_IZR. lra. }
  unfold canvas_size, truncate.
  destruct (Rle_dec 0 v) as [_|Hn]; [|contradiction].
  rewrite Z.mod_small by lia.
  destruct (Z.leb_spec (Int_part v) 2147483647) as [_|Hbig]; [|lia].
  split; [reflexivity|]. lra.
Qed.

(** X3. While the component is mounted a resize event always takes effect,
    and it alone decides scale and canvas size: after any events without a
    teardown, a resize to [w] by [h] leaves the scale at
    [min(w, h) / (2 * MAX_ORBIT)] and the canvas at the sizes it keeps of
    [w * dpr] and [h * dpr] (their whole parts, for sizes from 0 up to
    2^31), whatever scale and size were before. *)
Theorem resize_while_mounted (rect : R * R) (dpr : R) (es : list Event)
    (rect' : R * R) (dpr' : R) :
  ~ In Teardown es ->
  exists c c',
    globes rect dpr = Some c
    /\ run c (es ++ [Resized rect' dpr']) = Some c'
    /\ Cl.scale c' = Rmin rect'.1 rect'.2 / (K.MAX_ORBIT * 2)
    /\ Cl.canvas_width c' = canvas_size 300 (rect'.1 * dpr_or_1 dpr')
    /\ Cl.canvas_height c' = canvas_size 150 (rect'.2 * dpr_or_1 dpr')
    /\ (0 <= rect'.1 * dpr_or_1 dpr' < 2147483648 ->
        Cl.canvas_width c' = IZR (Int_part (rect'.1 * dpr_or_1 dpr'))
        /\ rect'.1 * dpr_or_1 dpr' - 1 < Cl.canvas_width c'
           <= rect'.1 * dpr_or_1 dpr')
    /\ (0 <= rect'.2 * dpr_or_1 dpr' < 2147483648 ->
        Cl.canvas_height c' = IZR (Int_part (rect'.2 * dpr_or_1 dpr'))
        /\ rect'.2 * dpr_or_1 dpr' - 1 < Cl.canvas_height c'
           <= rect'.2 * dpr_or_1 dpr').
Proof.
  intros Hnt.
  destruct (globes_first_frame rect dpr)
    as (c & Hg & Hlen & Hq & _ & Hl & Ha & _).
  destruct (run_queue es c Hlen Hq) as (c1 & Hrun & _).
  destruct (run_mounted es c c1 Hlen Hl Ha Hnt Hrun) as (Hl1 & _ & _).
  exists c, (resize rect' dpr' c1). split; [exact Hg|]. split.
  { rewrite run_app, Hrun. simpl. rewrite Hl1. reflexivity. }
  cbn [resize Cl.scale Cl.canvas_width Cl.canvas_height].
  do 3 (split; [reflexivity|]).
  split; intros Hrange; apply canvas_size_floor; exact Hrange.
Qed.

Lemma resize_while_mounted_witness :
  exists c c',
    globes (1000, 1000) 1 = Some c
    /\ run c ([Frame 1; Resized (300, 200) 2; Frame 2]
               ++ [Resized (333, 600) 1.5]) = Some c'
    /\ Cl.scale c' = Rmin 333 600 / (K.MAX_ORBIT * 2)
    /\ Cl.canvas_width c' = canvas_size 300 (333 * dpr_or_1 1.5)
    /\ Cl.canvas_height c' = canvas_size 150 (600 * dpr_or_1 1.5)
    /\ (0 <= 333 * dpr_or_1 1.5 < 2147483648 ->
        Cl.canvas_width c' = IZR (Int_part (333 * dpr_or_1 1.5))
        /\ 333 * dpr_or_1 1.5 - 1 < Cl.canvas_width c'
           <= 333 * dpr_or_1 1.5)
    /\ (0 <= 600 * dpr_or_1 1.5 < 2147483648 ->
        Cl.canvas_height c' = IZR (Int_part (600 * dpr_or_1 1.5))
        /\ 600 * dpr_or_1 1.5 - 1 < Cl.canvas_height c'
           <= 600 * dpr_or_1 1.5).
Proof.
  apply (resize_while_mounted (1000, 1000) 1
           [Frame 1; Resized (300, 200) 2; Frame 2] (333, 600) 1.5).
  intros [H|[H|[H|[]]]]; discriminate H.
Defined.

(** The case of a 333 wide container at a device pixel ratio of 1.5: the
    canvas is 499 wide, not 499.5. *)
Example canvas_size_333 : canvas_size 300 (333 * dpr_or_1 1.5) = 499.
Proof.
  assert (Hd : dpr_or_1 1.5 = 1.5)
    by (unfold dpr_or_1; destruct (Req_dec_T 1.5 0); lra).
  rewrite Hd.
  destruct (canvas_size_floor 300 (333 * 1.5) ltac:(lra)) as [-> _].
  f_equal. symmetry. apply Int_part_spec. lra.
Qed.

(** ** The order of the calls *)

Lemma body_cmds_tag (angle cx cy : R) (i : nat) (b : Body.t) (s : St.t)
    (c : Cmd) :
  In c (body_cmds angle cx cy i b s) -> cmd_tag c = Some i.
Proof.
  unfold body_cmds. intros Hin. apply in_app_or in Hin as [Hin|Hin].
  - destruct (draws_disc b s); [|destruct Hin].
    destruct Hin as [<-|[]]. reflexivity.
  - destruct (Body.ring b); [|destruct Hin].
    destruct Hin as [<-|[]]. reflexivity.
Qed.

Lemma body_cmds_sorted (st : list St.t) (angle cx cy : R) (i : nat)
    (b : Body.t) (s : St.t) :
  StronglySorted (paint_order st) (body_cmds angle cx cy i b s).
Proof.
  assert (Hsame : forall c1 c2,
            cmd_tag c1 = Some i -> cmd_tag c2 = Some i -> not_nearer st c1 c2).
  { intros c1 c2 H1 H2 j k s1 s2 Hj Hk Hs1 Hs2.
    assert (s1 = s2) by congruence. subst. lra. }
  unfold body_cmds.
  destruct (draws_disc b s), (Body.ring b); simpl.
  - apply SSorted_cons; [apply SSorted_cons; constructor|].
    constructor; [|constructor]. split; [apply Hsame; reflexivity|].
    unfold ring_cmd. simpl. intros j [= <-] _. split; eauto 10.
  - apply SSorted_cons; constructor.
  - apply SSorted_cons; constructor.
  - constructor.
Qed.

Lemma concat_sorted (bs : list Body.t) (angle cx cy : R) (st : list St.t)
    (objs : list (St.t * nat)) (cmdss : list (list Cmd)) :
  Forall2 (fun obj l =>
             exists b, bs !! obj.2 = Some b /\ st !! obj.2 = Some obj.1
                    /\ l = body_cmds angle cx cy obj.2 b obj.1)
          objs cmdss ->
  StronglySorted painted_before objs ->
  StronglySorted (paint_order st) (concat cmdss).
Proof.
  induction 1 as [|obj l objs ls (b & Hb & Hs & ->) HF IH]; intros Hsorted.
  - constructor.
  - apply StronglySorted_inv in Hsorted as [Hrest Hhead].
    simpl. apply StronglySorted_app_2.
    + intros c1 c2 Hc1 Hc2.
      rewrite list_elem_of_In in Hc1, Hc2.
      apply body_cmds_tag in Hc1.
      apply in_concat in Hc2 as (l' & Hl' & Hc2).
      rewrite <- list_elem_of_In in Hl'.
      apply list_elem_of_lookup in Hl' as [n Hn].
      destruct (Forall2_lookup_r _ _ _ _ _ HF Hn)
        as (obj' & Hobj' & b' & Hb' & Hs' & ->).
      apply body_cmds_tag in Hc2.
      rewrite Forall_forall in Hhead.
      assert (Hbefore : painted_before obj obj').
      { apply Hhead. eapply list_elem_of_lookup_2. exact Hobj'. }
      destruct Hbefore as [Hfar Hkeep].
      unfold farther_or_equal in Hfar. unfold keeps_catalog_order in Hkeep.
      split.
      * intros i j s1 s2 Hi Hj Hs1 Hs2.
        assert (i = obj.2) by congruence. assert (j = obj'.2) by congruence.
        subst i j.
        assert (s1 = obj.1) by congruence. assert (s2 = obj'.1) by congruence.
        subst. exact Hfar.
      * intros i Hi Hj. exfalso.
        assert (Heq : obj.2 = obj'.2) by congruence.
        assert (Hsame : obj.1 = obj'.1) by congruence.
        rewrite Hsame in Hkeep. specialize (Hkeep eq_refl). lia.
    + apply body_cmds_sorted.
    + exact (IH Hrest).
Qed.

(** X4. Painter's order: a frame first clears the canvas, and in the calls
    it then issues a call for one body comes before a call for another
    only if the first body's [z] is at least the second's, so nearer bodies
    are painted over farther ones; of two calls for the same body the first
    is its disc and the second its ring, so a ring is painted over its own
    disc. *)
Theorem painters_order (dpr : R) (c : Cl.t) :
  length (Cl.state c) = length bodies ->
  exists c' cmds,
    draw dpr c = Some c'
    /\ Cl.surface c'
       = ClearRect (Cl.canvas_width c / dpr_or_1 dpr)
                   (Cl.canvas_height c / dpr_or_1 dpr) :: cmds
    /\ StronglySorted (paint_order (Cl.state c')) (Cl.surface c').
Proof.
  intros Hlen.
  destruct (draw_frame dpr c Hlen) as (st & cmdss & Hdraw & _ & _ & _ & HF).
  eexists. exists (concat cmdss). split; [exact Hdraw|].
  cbn [Cl.surface Cl.state]. split; [reflexivity|].
  constructor.
  - apply (concat_sorted bodies (Cl.angle c) _ _ st (depth_sorted st) cmdss HF).
    exact (sort_painted_before (indexed st) (indexed_increasing st)).
  - rewrite Forall_forall. intros c2 _. split.
    + intros i j s1 s2 Hi. discriminate Hi.
    + intros i Hi. discriminate Hi.
Qed.

(** A frame at time [9e5], the second of the animation, in which the
    bodies are at different depths. *)
Lemma painters_order_witness :
  exists c' cmds,
    draw 1 (Cl.mk 9e5 (-0.3) (1 / 13) state0 1000 1000 true true 0%nat [])
    = Some c'
    /\ Cl.surface c' = ClearRect (1000 / dpr_or_1 1) (1000 / dpr_or_1 1) :: cmds
    /\ StronglySorted (paint_order (Cl.state c')) (Cl.surface c').
Proof.
  apply (painters_order 1
           (Cl.mk 9e5 (-0.3) (1 / 13) state0 1000 1000 true true 0%nat [])).
  reflexivity.
Defined.

(** ** Arguments of the calls *)

(** The viewing angle of the code: [sin(-0.3)] lies in (-0.3, 0),
    [cos(-0.3)] above 0.9, and [-tan(-0.3)] in (0, 1/3). *)
Lemma sin_angle_bounds : -0.3 < sin (-0.3) < 0.
Proof.
  pose proof PI2_1 as Hpi.
  replace (-0.3) with (Ropp 0.3) by lra. rewrite sin_neg.
  assert (0 < sin 0.3) by (apply sin_gt_0; lra).
  assert (sin 0.3 < 0.3) by (apply sin_lt_x; lra).
  lra.
Qed.

Lemma cos_angle_lower : 0.9 < cos (-0.3).
Proof.
  pose proof sin_angle_bounds as [Hs1 Hs2].
  pose proof cos_angle_bounds as [Hc _].
  pose proof (sin2_cos2 (-0.3)) as Hsq. unfold Rsqr in Hsq.
  nra.
Qed.

Lemma tan_angle_bounds : 0 < - tan (-0.3) < 1 / 3.
Proof.
  pose proof sin_angle_bounds as [Hs1 Hs2].
  pose proof cos_angle_lower as Hc.
  unfold tan.
  replace (- (sin (-0.3) / cos (-0.3))) with (- sin (-0.3) / cos (-0.3))
    by (field; lra).
  split.
  - apply Rdiv_lt_0_compat; lra.
  - apply Rmult_lt_reg_r with (cos (-0.3)); [lra|].
    unfold Rdiv. rewrite Rmult_assoc, Rinv_l by lra. lra.
Qed.

Lemma update_body_radius_pos (t angle scale : R) (b : Body.t)
    (par : R * R * R) :
  0.5 <= St.r (update_body t angle scale b par).
Proof.
  destruct par as [[px py] pz]. simpl.
  pose proof (floor_of_pos b).
  pose proof (Rmax_l (floor_of b) (Body.r b * scale)). lra.
Qed.

(** The mean ring radius of the code is the disc radius times
    [(ring[0] + ring[1]) / (2 * r)]. *)
Lemma ring_radius_ratio (b : Body.t) (rg : R * R) (s : St.t) :
  Body.r b <> 0 ->
  ring_radius b rg s = St.r s * ((rg.1 + rg.2) / (2 * Body.r b)).
Proof. intros Hb. unfold ring_radius. field. exact Hb. Qed.

Lemma ringed_bodies_wide (i : nat) (b : Body.t) (rg : R * R) :
  bodies !! i = Some b -> Body.ring b = Some rg ->
  0 < Body.r b /\ Body.r b < rg.1 /\ rg.1 < 3 * Body.r b
  /\ 2 * Body.r b < rg.1 + rg.2.
Proof.
  intros Hb Hrg.
  do 14 (destruct i as [|i];
         [simpl in Hb; injection Hb as <-; simpl in Hrg;
          try discriminate Hrg; injection Hrg as <-; simpl;
          unfold K.SA, K.U; lra|]).
  discriminate Hb.
Qed.

Lemma ring_radius_outside (i : nat) (b : Body.t) (rg : R * R) (s : St.t) :
  bodies !! i = Some b -> Body.ring b = Some rg -> 0 < St.r s ->
  St.r s < ring_radius b rg s.
Proof.
  intros Hb Hrg Hs.
  destruct (ringed_bodies_wide i b rg Hb Hrg) as (Hb0 & _ & _ & Hw).
  rewrite ring_radius_ratio by lra.
  assert (Hk : 1 < (rg.1 + rg.2) / (2 * Body.r b)).
  { apply Rmult_lt_reg_r with (2 * Body.r b); [lra|].
    unfold Rdiv. rewrite Rmult_assoc, Rinv_l by lra. lra. }
  nra.
Qed.

Lemma body_cmds_disc (angle cx cy : R) (i j : nat) (b : Body.t) (s : St.t)
    (x y r : R) :
  In (Disc j x y r) (body_cmds angle cx cy i b s)
  <-> j = i /\ draws_disc b s = true
      /\ x = cx + St.x s /\ y = cy + St.y s /\ r = St.r s.
Proof.
  unfold body_cmds. rewrite in_app_iff. split.
  - intros [Hin|Hin].
    + destruct (draws_disc b s); [|destruct Hin].
      destruct Hin as [[= <- <- <- <-]|[]]. auto.
    + destruct (Body.ring b); [|destruct Hin].
      destruct Hin as [Heq|[]]. discriminate Heq.
  - intros (-> & Hd & -> & -> & ->). left. rewrite Hd. left. reflexivity.
Qed.

Lemma body_cmds_ring (angle cx cy : R) (i : nat) (b : Body.t) (s : St.t)
    (c : Cmd) :
  (forall j x y r, c <> Disc j x y r) ->
  In c (body_cmds angle cx cy i b s)
  <-> exists rg, Body.ring b = Some rg /\ c = ring_cmd angle cx cy i b rg s.
Proof.
  intros Hnd. unfold body_cmds. rewrite in_app_iff. split.
  - intros [Hin|Hin].
    + destruct (draws_disc b s); [|destruct Hin].
      destruct Hin as [<-|[]]. exfalso. eapply Hnd. reflexivity.
    + destruct (Body.ring b) as [rg|]; [|destruct Hin].
      destruct Hin as [<-|[]]. eauto.
  - intros (rg & -> & ->). right. left. reflexivity.
Qed.

Lemma ringed_bodies_satellite (i : nat) (b : Body.t) (rg : R * R) :
  bodies !! i = Some b -> Body.ring b = Some rg -> Body.o b <> None.
Proof.
  intros Hb Hrg.
  do 14 (destruct i as [|i];
         [simpl in Hb; injection Hb as <-; simpl in Hrg;
          try discriminate Hrg; discriminate|]).
  discriminate Hb.
Qed.

(** X5. A ring arc is issued in every frame for exactly the bodies of the
    catalog that have a [ring], whether or not their disc is drawn: when
    the scaled radius [r * scale] of a ringed body is at most 0.5 the frame
    draws its ring and no disc inside it. *)
Theorem ring_drawn_iff (dpr : R) (c : Cl.t) (i : nat) (b : Body.t) :
  length (Cl.state c) = length bodies -> bodies !! i = Some b ->
  exists c',
    draw dpr c = Some c'
    /\ ((exists x y rx ry a0 a1 lw,
           In (RingArc i x y rx ry a0 a1 lw) (Cl.surface c'))
        <-> Body.ring b <> None)
    /\ (Body.ring b <> None -> Body.r b * Cl.scale c <= 0.5 ->
        ~ exists x y r, In (Disc i x y r) (Cl.surface c')).
Proof.
  intros Hlen Hb.
  destruct (draw_frame dpr c Hlen)
    as (st & cmdss & Hdraw & _ & _ & Hent & HF).
  eexists. split; [exact Hdraw|]. cbn [Cl.surface].
  destruct (Hent i b Hb) as [par [_ Hs]].
  split; [split|].
  - intros (x & y & rx & ry & a0 & a1 & lw & [Heq|Hin]); [discriminate Heq|].
    apply (draw_bodies_in _ _ _ _ _ _ _ HF) in Hin
      as (k & b' & s' & Hb' & Hs' & Hin).
    pose proof (body_cmds_tag _ _ _ _ _ _ _ Hin) as Htag.
    injection Htag as <-.
    apply body_cmds_ring in Hin as (rg & Hrg & _); [|discriminate].
    assert (b' = b) by congruence. subst. congruence.
  - intros Hring. destruct (Body.ring b) as [rg|] eqn:Hrg; [|contradiction].
    pose (cmd := ring_cmd (Cl.angle c)
                   (Cl.canvas_width c / dpr_or_1 dpr / 2)
                   (Cl.canvas_height c / dpr_or_1 dpr / 2) i b rg
                   (update_body (Cl.time c) (Cl.angle c) (Cl.scale c) b par)).
    assert (Hin : In cmd (concat cmdss)).
    { apply (draw_bodies_in _ _ _ _ _ _ _ HF).
      exists i, b, (update_body (Cl.time c) (Cl.angle c) (Cl.scale c) b par).
      split; [exact Hb|]. split; [exact Hs|].
      apply body_cmds_ring; [discriminate|]. eauto. }
    unfold cmd, ring_cmd in Hin. do 7 eexists. right. exact Hin.
  - intros Hring Hsmall (x & y & r & [Heq|Hin]); [discriminate Heq|].
    apply (draw_bodies_in _ _ _ _ _ _ _ HF) in Hin
      as (k & b' & s' & Hb' & Hs' & Hin).
    apply body_cmds_disc in Hin as (<- & Hd & _).
    assert (b' = b) by congruence. subst b'.
    assert (s' = update_body (Cl.time c) (Cl.angle c) (Cl.scale c) b par)
      by congruence. subst s'.
    apply draws_disc_iff in Hd.
    destruct (Body.ring b) as [rg|] eqn:Hrg; [|contradiction].
    pose proof (ringed_bodies_satellite i b rg Hb Hrg) as Ho.
    destruct Hd as [Hgt|Hnone]; [|contradiction].
    destruct par as [[px py] pz]. simpl in Hgt.
    unfold floor_of in Hgt. destruct (Body.o b); [|contradiction].
    rewrite Rmax_left in Hgt by exact Hsmall. lra.
Qed.

Lemma ring_drawn_iff_witness :
  exists c',
    draw 1 (mounted (0, 0) 1) = Some c'
    /\ ((exists x y rx ry a0 a1 lw,
           In (RingArc 11 x y rx ry a0 a1 lw) (Cl.surface c'))
        <-> Body.ring saturn <> None)
    /\ (Body.ring saturn <> None ->
        Body.r saturn * Cl.scale (mounted (0, 0) 1) <= 0.5 ->
        ~ exists x y r, In (Disc 11 x y r) (Cl.surface c')).
Proof.
  apply (ring_drawn_iff 1 (mounted (0, 0) 1) 11 saturn); reflexivity.
Defined.

(** X6. With the viewing angle of the code, every ring arc a frame issues
    is a well-formed flattened ellipse around its disc: its horizontal
    radius exceeds the disc radius of its body, its vertical radius is
    positive and smaller than the horizontal one, and its line width is
    exactly 1 (the width [sin(angle) * ringR + 1] is below the floor of
    1, the sine being negative). *)
Theorem ring_arcs_valid (dpr : R) (c : Cl.t) :
  length (Cl.state c) = length bodies -> Cl.angle c = -0.3 ->
  exists c',
    draw dpr c = Some c'
    /\ forall i x y rx ry a0 a1 lw,
         In (RingArc i x y rx ry a0 a1 lw) (Cl.surface c') ->
         exists s, Cl.state c' !! i = Some s
           /\ St.r s < rx /\ 0 < ry /\ ry < rx /\ lw = 1.
Proof.
  intros Hlen Hang.
  destruct (draw_frame dpr c Hlen)
    as (st & cmdss & Hdraw & _ & _ & Hent & HF).
  eexists. split; [exact Hdraw|]. cbn [Cl.surface Cl.state].
  intros i x y rx ry a0 a1 lw [Heq|Hin]; [discriminate Heq|].
  apply (draw_bodies_in _ _ _ _ _ _ _ HF) in Hin
    as (k & b & s & Hb & Hs & Hin).
  pose proof (body_cmds_tag _ _ _ _ _ _ _ Hin) as Htag.
  injection Htag as <-.
  apply body_cmds_ring in Hin as (rg & Hrg & Heq); [|discriminate].
  unfold ring_cmd in Heq. injection Heq as -> -> -> -> -> -> ->.
  exists s. split; [exact Hs|].
  assert (Hr : 0 < St.r s).
  { destruct (Hent i b Hb) as [par [_ Hs']].
    assert (s = update_body (Cl.time c) (Cl.angle c) (Cl.scale c) b par)
      by congruence. subst s.
    pose proof (update_body_radius_pos (Cl.time c) (Cl.angle c)
                  (Cl.scale c) b par). lra. }
  pose proof (ring_radius_outside i b rg s Hb Hrg Hr) as Hout.
  rewrite Hang. pose proof sin_angle_bounds as [Hs1 Hs2].
  split; [exact Hout|]. split; [nra|]. split; [nra|].
  apply Rmax_left. nra.
Qed.

Lemma ring_arcs_valid_witness :
  exists c',
    draw 1 (mounted (1000, 1000) 1) = Some c'
    /\ forall i x y rx ry a0 a1 lw,
         In (RingArc i x y rx ry a0 a1 lw) (Cl.surface c') ->
         exists s, Cl.state c' !! i = Some s
           /\ St.r s < rx /\ 0 < ry /\ ry < rx /\ lw = 1.
Proof.
  apply (ring_arcs_valid 1 (mounted (1000, 1000) 1)); reflexivity.
Defined.

(** X7. Every disc a frame issues has a radius above 0.5, and the disc of a
    satellite is always drawn at its unclamped radius [r * scale]: the
    floor of 0.5 never reaches the canvas as a disc radius, and the floor
    of 0.51 makes the test [obj.r > 0.5] pass for the central body by
    itself. *)
Theorem discs_valid (dpr : R) (c : Cl.t) :
  length (Cl.state c) = length bodies ->
  exists c',
    draw dpr c = Some c'
    /\ forall i x y r, In (Disc i x y r) (Cl.surface c') ->
         0.5 < r
         /\ exists b, bodies !! i = Some b
              /\ (Body.o b <> None -> r = Body.r b * Cl.scale c)
              /\ (Body.o b = None -> r = Rmax 0.51 (Body.r b * Cl.scale c)).
Proof.
  intros Hlen.
  destruct (draw_frame dpr c Hlen)
    as (st & cmdss & Hdraw & _ & _ & Hent & HF).
  eexists. split; [exact Hdraw|]. cbn [Cl.surface].
  intros i x y r [Heq|Hin]; [discriminate Heq|].
  apply (draw_bodies_in _ _ _ _ _ _ _ HF) in Hin
    as (k & b & s & Hb & Hs & Hin).
  apply body_cmds_disc in Hin as (-> & Hd & _ & _ & ->).
  destruct (Hent k b Hb) as [[[px py] pz] [_ Hs']].
  assert (s = update_body (Cl.time c) (Cl.angle c) (Cl.scale c) b
                (px, py, pz)) by congruence. subst s.
  apply draws_disc_iff in Hd. simpl in Hd. simpl.
  unfold floor_of in *.
  destruct (Body.o b) as [j|] eqn:Ho.
  - destruct Hd as [Hgt|Hnone]; [|discriminate].
    split; [lra|]. exists b. split; [exact Hb|]. split; [|congruence].
    intros _. unfold Rmax in *.
    destruct (Rle_dec 0.5 (Body.r b * Cl.scale c)); lra.
  - pose proof (Rmax_l 0.51 (Body.r b * Cl.scale c)).
    split; [lra|]. exists b. split; [exact Hb|]. split; [congruence|].
    reflexivity.
Qed.

Lemma discs_valid_witness :
  exists c',
    draw 1 (mounted (1000, 1000) 1) = Some c'
    /\ forall i x y r, In (Disc i x y r) (Cl.surface c') ->
         0.5 < r
         /\ exists b, bodies !! i = Some b
              /\ (Body.o b <> None
                  -> r = Body.r b * Cl.scale (mounted (1000, 1000) 1))
              /\ (Body.o b = None
                  -> r = Rmax 0.51
                           (Body.r b * Cl.scale (mounted (1000, 1000) 1))).
Proof. apply (discs_valid 1 (mounted (1000, 1000) 1)). reflexivity. Defined.

(** ** Where the bodies are *)

Lemma orbit_abs (t p off : R) : Rabs (orbit t p off) <= 1.
Proof. unfold orbit. apply Rabs_le. apply COS_bound. Qed.

Lemma update_body_abs (t angle scale : R) (b : Body.t) (px py pz : R) :
  let s := update_body t angle scale b (px, py, pz) in
  Rabs (St.x s) <= Rabs px + Rabs (Body.d b) * Rabs scale
  /\ Rabs (St.y s) <= Rabs py + Rabs (Body.d b) * Rabs scale
  /\ Rabs (St.z s) <= Rabs pz + Rabs (Body.d b) * Rabs scale.
Proof.
  simpl.
  pose proof (Rabs_pos (Body.d b)) as Hd. pose proof (Rabs_pos scale) as Hsc.
  assert (Hds : 0 <= Rabs (Body.d b) * Rabs scale)
    by (apply Rmult_le_pos; assumption).
  assert (Hsin : Rabs (sin angle) <= 1) by (apply Rabs_le, SIN_bound).
  assert (Hcos : Rabs (cos angle) <= 1) by (apply Rabs_le, COS_bound).
  pose proof (Rabs_pos (sin angle)). pose proof (Rabs_pos (cos angle)).
  repeat split.
  - eapply Rle_trans; [apply Rabs_triang|]. rewrite !Rabs_mult.
    pose proof (orbit_abs t (Body.p b) 0).
    pose proof (Rabs_pos (orbit t (Body.p b) 0)).
    nra.
  - eapply Rle_trans; [apply Rabs_triang|]. rewrite !Rabs_mult.
    pose proof (orbit_abs t (Body.p b) (PI / 2)).
    pose proof (Rabs_pos (orbit t (Body.p b) (PI / 2))).
    assert (Rabs (sin angle) * (Rabs (Body.d b) * Rabs scale)
            <= Rabs (Body.d b) * Rabs scale) by nra.
    nra.
  - eapply Rle_trans; [apply Rabs_triang|]. rewrite !Rabs_mult.
    pose proof (orbit_abs t (Body.p b) (PI / 2)).
    pose proof (Rabs_pos (orbit t (Body.p b) (PI / 2))).
    assert (Rabs (cos angle) * (Rabs (Body.d b) * Rabs scale)
            <= Rabs (Body.d b) * Rabs scale) by nra.
    nra.
Qed.

Lemma entries_within_reach (bs : list Body.t) (t angle scale : R)
    (st' : list St.t) :
  parents_first bs = true -> length st' = length bs ->
  (forall i b, bs !! i = Some b ->
     exists par, resolve_parent st' (Body.o b) = Some par
              /\ st' !! i = Some (update_body t angle scale b par)) ->
  forall i s, st' !! i = Some s ->
    Rabs (St.x s) <= reach bs (length bs) i * Rabs scale
    /\ Rabs (St.y s) <= reach bs (length bs) i * Rabs scale
    /\ Rabs (St.z s) <= reach bs (length bs) i * Rabs scale.
Proof.
  intros Hpf Hlen' Hent.
  assert (Hfuel : forall f i s, (i < f)%nat -> st' !! i = Some s ->
            Rabs (St.x s) <= reach bs f i * Rabs scale
            /\ Rabs (St.y s) <= reach bs f i * Rabs scale
            /\ Rabs (St.z s) <= reach bs f i * Rabs scale).
  { induction f as [|f IH]; intros i s Hi Hs; [lia|].
    pose proof (lookup_lt_Some _ _ _ Hs) as Hil.
    destruct (lookup_lt_is_Some_2 bs i ltac:(lia)) as [b Hb].
    destruct (Hent i b Hb) as [[[px py] pz] [Hpar Hs']].
    assert (s = update_body t angle scale b (px, py, pz)) by congruence.
    subst s. simpl reach. rewrite Hb.
    pose proof (update_body_abs t angle scale b px py pz) as (Hx & Hy & Hz).
    destruct (Body.o b) as [j|] eqn:Ho; simpl in Hpar.
    - pose proof (parents_first_lt bs Hpf i b j Hb Ho) as Hj.
      destruct (st' !! j) as [sj|] eqn:Hsj; [|discriminate].
      simpl in Hpar. injection Hpar as <- <- <-.
      destruct (IH j sj ltac:(lia) Hsj) as (Hjx & Hjy & Hjz).
      repeat split; simpl in *; lra.
    - injection Hpar as <- <- <-. rewrite Rabs_R0 in *.
      repeat split; simpl in *; lra. }
  intros i s Hs. apply Hfuel; [|exact Hs].
  apply lookup_lt_Some in Hs. lia.
Qed.

(** X8. No body strays farther from the origin than its chain of orbits
    allows: after a frame over a catalog that lists parents first, each
    coordinate of body [i] is bounded in absolute value by [|scale|] times
    the sum of the orbit distances from [i] up to its root. *)
Theorem positions_within_reach (bs : list Body.t) (t angle scale : R)
    (st : list St.t) :
  parents_first bs = true -> length st = length bs ->
  exists st',
    update_positions bs t angle scale st = Some st'
    /\ forall i s, st' !! i = Some s ->
         Rabs (St.x s) <= reach bs (length bs) i * Rabs scale
         /\ Rabs (St.y s) <= reach bs (length bs) i * Rabs scale
         /\ Rabs (St.z s) <= reach bs (length bs) i * Rabs scale.
Proof.
  intros Hpf Hlen.
  destruct (update_positions_entry bs t angle scale st Hpf Hlen)
    as [st' [Hrun [Hlen' Hent]]].
  exists st'. split; [exact Hrun|].
  exact (entries_within_reach bs t angle scale st' Hpf Hlen' Hent).
Qed.

Lemma positions_within_reach_witness :
  exists st',
    update_positions bodies 9e5 (-0.3) 1 state0 = Some st'
    /\ forall i s, st' !! i = Some s ->
         Rabs (St.x s) <= reach bodies (length bodies) i * Rabs 1
         /\ Rabs (St.y s) <= reach bodies (length bodies) i * Rabs 1
         /\ Rabs (St.z s) <= reach bodies (length bodies) i * Rabs 1.
Proof.
  apply (positions_within_reach bodies 9e5 (-0.3) 1 state0); reflexivity.
Defined.

(** On the catalog of the code no chain of orbits is longer than
    [MAX_ORBIT], the distance of Neptune. *)
Lemma reach_bodies (i : nat) :
  0 <= reach bodies (length bodies) i <= K.MAX_ORBIT.
Proof.
  assert (Habs : forall v, 0 <= v -> Rabs v = v)
    by (intros v Hv; apply Rabs_pos_eq; exact Hv).
  do 14 (destruct i as [|i];
         [simpl; unfold K.MAX_ORBIT, K.S, K.E, K.J;
          rewrite ?Habs by lra; lra|]).
  simpl. unfold K.MAX_ORBIT, K.S. lra.
Qed.

Lemma dpr_or_1_nonzero (dpr : R) : dpr_or_1 dpr <> 0.
Proof. unfold dpr_or_1. destruct (Req_dec_T dpr 0); lra. Qed.

Lemma div_floor_bounds (v d C : R) :
  0 < d -> v * d - 1 < C <= v * d -> v - 1 / d < C / d <= v.
Proof.
  intros Hd [H1 H2].
  assert (Hdi : d * / d = 1) by (apply Rinv_r; lra).
  unfold Rdiv. split.
  - apply Rmult_lt_reg_r with d; [lra|].
    rewrite Rmult_assoc, Rinv_l by lra.
    replace ((v - 1 * / d) * d) with (v * d - d * / d) by ring.
    rewrite Hdi. lra.
  - apply Rmult_le_reg_r with d; [lra|].
    rewrite Rmult_assoc, Rinv_l by lra. lra.
Qed.

(** X9. The scale [resize] computes keeps the centres of the whole system
    on the canvas, up to the part of a pixel the canvas size loses.  In the
    frame after a resize to a container of width [w] and height [h]
    (non-negative, device pixel ratio positive, sizes in pixels below
    2^31) the frame clears a rectangle [W] by [H] with
    [w - 1/dpr < W <= w] and [h - 1/dpr < H <= h], and the centre of every
    disc and ring arc lies in that rectangle widened by [(w - W) / 2] and
    [(h - H) / 2] on each side; when [w * dpr] and [h * dpr] are whole
    numbers [W = w], [H = h] and every centre lies inside the cleared
    rectangle. *)
Theorem centres_inside_container (w h dpr : R) (c : Cl.t) :
  length (Cl.state c) = length bodies ->
  0 <= w -> 0 <= h -> 0 < dpr_or_1 dpr ->
  w * dpr_or_1 dpr < 2147483648 -> h * dpr_or_1 dpr < 2147483648 ->
  exists c' cmds W H,
    draw dpr (resize (w, h) dpr c) = Some c'
    /\ Cl.surface c' = ClearRect W H :: cmds
    /\ w - 1 / dpr_or_1 dpr < W <= w
    /\ h - 1 / dpr_or_1 dpr < H <= h
    /\ ((exists n : Z, w * dpr_or_1 dpr = IZR n) -> W = w)
    /\ ((exists n : Z, h * dpr_or_1 dpr = IZR n) -> H = h)
    /\ (forall i x y r, In (Disc i x y r) cmds ->
          - ((w - W) / 2) <= x <= W + (w - W) / 2
          /\ - ((h - H) / 2) <= y <= H + (h - H) / 2)
    /\ (forall i x y rx ry a0 a1 lw, In (RingArc i x y rx ry a0 a1 lw) cmds ->
          - ((w - W) / 2) <= x <= W + (w - W) / 2
          /\ - ((h - H) / 2) <= y <= H + (h - H) / 2).
Proof.
  intros Hlen Hw Hh Hdpr Hwmax Hhmax.
  destruct (draw_frame dpr (resize (w, h) dpr c) Hlen)
    as (st & cmdss & Hdraw & _ & Hlen' & Hent & HF).
  cbn [resize Cl.time Cl.angle Cl.scale Cl.state Cl.canvas_width
       Cl.canvas_height Cl.attached Cl.listening Cl.queued Cl.surface
       fst snd] in *.
  assert (Hwd : 0 <= w * dpr_or_1 dpr) by (apply Rmult_le_pos; lra).
  assert (Hhd : 0 <= h * dpr_or_1 dpr) by (apply Rmult_le_pos; lra).
  destruct (canvas_size_floor 300 (w * dpr_or_1 dpr) ltac:(lra))
    as [HWeq [HW1 HW2]].
  destruct (canvas_size_floor 150 (h * dpr_or_1 dpr) ltac:(lra))
    as [HHeq [HH1 HH2]].
  set (W := canvas_size 300 (w * dpr_or_1 dpr) / dpr_or_1 dpr) in *.
  set (H := canvas_size 150 (h * dpr_or_1 dpr) / dpr_or_1 dpr) in *.
  assert (HWb : w - 1 / dpr_or_1 dpr < W <= w)
    by (apply div_floor_bounds; [exact Hdpr|split; assumption]).
  assert (HHb : h - 1 / dpr_or_1 dpr < H <= h)
    by (apply div_floor_bounds; [exact Hdpr|split; assumption]).
  eexists. exists (concat cmdss), W, H. split; [exact Hdraw|].
  cbn [Cl.surface]. split; [reflexivity|].
  split; [exact HWb|]. split; [exact HHb|].
  split.
  { intros [n Hn]. subst W. rewrite HWeq.
    rewrite <- (Int_part_spec (w * dpr_or_1 dpr) n) by (rewrite Hn; lra).
    rewrite <- Hn. field. lra. }
  split.
  { intros [n Hn]. subst H. rewrite HHeq.
    rewrite <- (Int_part_spec (h * dpr_or_1 dpr) n) by (rewrite Hn; lra).
    rewrite <- Hn. field. lra. }
  assert (Hpos : forall i s, st !! i = Some s ->
            Rabs (St.x s) <= Rmin w h / 2 /\ Rabs (St.y s) <= Rmin w h / 2).
  { intros i s Hs.
    destruct (entries_within_reach bodies _ _ _ st bodies_parents_first
                Hlen' Hent i s Hs) as (Hx & Hy & _).
    pose proof (reach_bodies i) as [Hr0 Hr1].
    assert (Hmin : 0 <= Rmin w h) by (apply Rmin_glb; assumption).
    assert (Hsc : Rabs (Rmin w h / (K.MAX_ORBIT * 2))
                  = Rmin w h / (K.MAX_ORBIT * 2)).
    { apply Rabs_pos_eq. unfold K.MAX_ORBIT, K.S.
      apply Rmult_le_pos; [exact Hmin|].
      apply Rlt_le, Rinv_0_lt_compat. lra. }
    rewrite Hsc in Hx, Hy.
    assert (Hk : K.MAX_ORBIT * (Rmin w h / (K.MAX_ORBIT * 2)) = Rmin w h / 2)
      by (unfold K.MAX_ORBIT, K.S; field).
    assert (0 <= Rmin w h / (K.MAX_ORBIT * 2)).
    { unfold K.MAX_ORBIT, K.S. apply Rmult_le_pos; [exact Hmin|].
      apply Rlt_le, Rinv_0_lt_compat. lra. }
    split; nra. }
  assert (Hbox : forall i s, st !! i = Some s ->
            (- ((w - W) / 2) <= W / 2 + St.x s <= W + (w - W) / 2)
            /\ (- ((h - H) / 2) <= H / 2 + St.y s <= H + (h - H) / 2)).
  { intros i s Hs. destruct (Hpos i s Hs) as [Hx Hy].
    pose proof (Rmin_l w h). pose proof (Rmin_r w h).
    pose proof (Rle_abs (St.x s)). pose proof (Rle_abs (- St.x s)).
    pose proof (Rle_abs (St.y s)). pose proof (Rle_abs (- St.y s)).
    rewrite Rabs_Ropp in *. lra. }
  split.
  - intros i x y r Hin.
    apply (draw_bodies_in _ _ _ _ _ _ _ HF) in Hin
      as (k & b & s & Hb & Hs & Hin).
    apply body_cmds_disc in Hin as (_ & _ & -> & -> & _).
    exact (Hbox k s Hs).
  - intros i x y rx ry a0 a1 lw Hin.
    apply (draw_bodies_in _ _ _ _ _ _ _ HF) in Hin
      as (k & b & s & Hb & Hs & Hin).
    apply body_cmds_ring in Hin as (rg & _ & Heq); [|discriminate].
    unfold ring_cmd in Heq. injection Heq as _ -> -> _ _ _ _ _.
    exact (Hbox k s Hs).
Qed.

Lemma dpr_or_1_3_2 : dpr_or_1 1.5 = 1.5.
Proof. unfold dpr_or_1. destruct (Req_dec_T 1.5 0); lra. Qed.

Lemma centres_inside_container_witness :
  exists c' cmds W H,
    draw 1.5 (resize (333, 600) 1.5 (mounted (300, 300) 1)) = Some c'
    /\ Cl.surface c' = ClearRect W H :: cmds
    /\ 333 - 1 / dpr_or_1 1.5 < W <= 333
    /\ 600 - 1 / dpr_or_1 1.5 < H <= 600
    /\ ((exists n : Z, 333 * dpr_or_1 1.5 = IZR n) -> W = 333)
    /\ ((exists n : Z, 600 * dpr_or_1 1.5 = IZR n) -> H = 600)
    /\ (forall i x y r, In (Disc i x y r) cmds ->
          - ((333 - W) / 2) <= x <= W + (333 - W) / 2
          /\ - ((600 - H) / 2) <= y <= H + (600 - H) / 2)
    /\ (forall i x y rx ry a0 a1 lw, In (RingArc i x y rx ry a0 a1 lw) cmds ->
          - ((333 - W) / 2) <= x <= W + (333 - W) / 2
          /\ - ((600 - H) / 2) <= y <= H + (600 - H) / 2).
Proof.
  apply (centres_inside_container 333 600 1.5 (mounted (300, 300) 1));
    try reflexivity; rewrite ?dpr_or_1_3_2; lra.
Defined.

(** ** The hidden arc of a ring *)

Lemma disc_over_ring (b : Body.t) (rg : R * R) (s : St.t) :
  0 < Body.r b -> 0 < rg.1 + rg.2 -> 0 < St.r s ->
  St.r s / ring_radius b rg s = 2 * Body.r b / (rg.1 + rg.2).
Proof. intros Hb Hrg Hs. unfold ring_radius. field. lra. Qed.

Lemma hidden_test_scale_free (angle : R) (b : Body.t) (rg : R * R) (s : St.t) :
  0 < Body.r b -> 0 < St.r s ->
  (- tan angle * (St.r s / Body.r b) * rg.1 >= St.r s
   <-> - tan angle * rg.1 / Body.r b >= 1).
Proof.
  intros Hb Hs.
  replace (- tan angle * (St.r s / Body.r b) * rg.1)
    with (St.r s * (- tan angle * rg.1 / Body.r b)) by (field; lra).
  split; intros H; nra.
Qed.

(** X10. The hidden arc of a ring does not depend on the zoom: for a body of
    positive base radius and positive ring radii, two entries with positive
    screen radii give the same hidden arc, at any viewing angle.  Both the
    test and the ratio [discRadius / ringRadius] only see the body's own
    proportions. *)
Theorem hidden_arc_scale_free (angle : R) (b : Body.t) (rg : R * R)
    (s s' : St.t) :
  0 < Body.r b -> 0 < rg.1 + rg.2 -> 0 < St.r s -> 0 < St.r s' ->
  hidden_arc angle b rg s = hidden_arc angle b rg s'.
Proof.
  intros Hb Hrg Hs Hs'. unfold hidden_arc.
  rewrite !disc_over_ring by assumption.
  pose proof (hidden_test_scale_free angle b rg s Hb Hs) as H1.
  pose proof (hidden_test_scale_free angle b rg s' Hb Hs') as H2.
  destruct (Rge_dec _ (St.r s)) as [Ha|Ha], (Rge_dec _ (St.r s')) as [Hc|Hc];
    try reflexivity; exfalso; tauto.
Qed.

Lemma hidden_arc_scale_free_witness :
  hidden_arc (-0.3) saturn (K.SA + 100, K.SA + 200) (St.mk 0 0 0 0.5 0)
  = hidden_arc (-0.3) saturn (K.SA + 100, K.SA + 200) (St.mk 7 8 9 40 0).
Proof.
  apply (hidden_arc_scale_free (-0.3) saturn (K.SA + 100, K.SA + 200)
           (St.mk 0 0 0 0.5 0) (St.mk 7 8 9 40 0));
    simpl; unfold K.SA; lra.
Defined.

(** X11. On the catalog of the code the branch [? 0] of the hidden arc is
    never taken and the [min(1, ...)] never clamps: in every frame the ring
    arc of a ringed body starts at [(-π + H) / 2] and ends at
    [(3π - H) / 2] with the same
    [H = cos(-0.3) * 2 * asin(2 * r / (ring[0] + ring[1]))], whatever the
    time and the scale factor. *)
Theorem ring_arc_constant (dpr : R) (c : Cl.t) :
  length (Cl.state c) = length bodies -> Cl.angle c = -0.3 ->
  exists c',
    draw dpr c = Some c'
    /\ forall i x y rx ry a0 a1 lw,
         In (RingArc i x y rx ry a0 a1 lw) (Cl.surface c') ->
         exists b rg, bodies !! i = Some b /\ Body.ring b = Some rg
           /\ a0 = arc_start
                     (cos (-0.3) * 2 * asin (2 * Body.r b / (rg.1 + rg.2)))
           /\ a1 = arc_end
                     (cos (-0.3) * 2 * asin (2 * Body.r b / (rg.1 + rg.2))).
Proof.
  intros Hlen Hang.
  destruct (draw_frame dpr c Hlen)
    as (st & cmdss & Hdraw & _ & _ & Hent & HF).
  eexists. split; [exact Hdraw|]. cbn [Cl.surface].
  intros i x y rx ry a0 a1 lw [Heq|Hin]; [discriminate Heq|].
  apply (draw_bodies_in _ _ _ _ _ _ _ HF) in Hin
    as (k & b & s & Hb & Hs & Hin).
  pose proof (body_cmds_tag _ _ _ _ _ _ _ Hin) as Htag.
  injection Htag as <-.
  apply body_cmds_ring in Hin as (rg & Hrg & Heq); [|discriminate].
  unfold ring_cmd in Heq. injection Heq as _ _ _ _ -> -> _.
  exists b, rg. split; [exact Hb|]. split; [exact Hrg|].
  assert (Hr : 0 < St.r s).
  { destruct (Hent i b Hb) as [par [_ Hs']].
    assert (s = update_body (Cl.time c) (Cl.angle c) (Cl.scale c) b par)
      by congruence. subst s.
    pose proof (update_body_radius_pos (Cl.time c) (Cl.angle c)
                  (Cl.scale c) b par). lra. }
  destruct (ringed_bodies_wide i b rg Hb Hrg) as (Hb0 & Hb1 & Hb3 & Hw).
  assert (Hh : hidden_arc (Cl.angle c) b rg s
               = cos (-0.3) * 2 * asin (2 * Body.r b / (rg.1 + rg.2))).
  { rewrite Hang. unfold hidden_arc.
    destruct (Rge_dec _ _) as [Hge|_].
    - exfalso. apply hidden_test_scale_free in Hge; [|assumption..].
      pose proof tan_angle_bounds as [Ht0 Ht1].
      assert (Hq : rg.1 / Body.r b < 3).
      { apply Rmult_lt_reg_r with (Body.r b); [lra|].
        unfold Rdiv. rewrite Rmult_assoc, Rinv_l by lra. lra. }
      assert (Hq0 : 0 < rg.1 / Body.r b)
        by (apply Rdiv_lt_0_compat; lra).
      replace (- tan (-0.3) * rg.1 / Body.r b)
        with (- tan (-0.3) * (rg.1 / Body.r b)) in Hge by (field; lra).
      nra.
    - rewrite disc_over_ring by lra.
      rewrite Rmin_right; [reflexivity|].
      apply Rlt_le. apply Rmult_lt_reg_r with (rg.1 + rg.2); [lra|].
      unfold Rdiv. rewrite Rmult_assoc, Rinv_l by lra. lra. }
  rewrite Hh. split; reflexivity.
Qed.

Lemma ring_arc_constant_witness :
  exists c',
    draw 1 (mounted (1000, 1000) 1) = Some c'
    /\ forall i x y rx ry a0 a1 lw,
         In (RingArc i x y rx ry a0 a1 lw) (Cl.surface c') ->
         exists b rg, bodies !! i = Some b /\ Body.ring b = Some rg
           /\ a0 = arc_start
                     (cos (-0.3) * 2 * asin (2 * Body.r b / (rg.1 + rg.2)))
           /\ a1 = arc_end
                     (cos (-0.3) * 2 * asin (2 * Body.r b / (rg.1 + rg.2))).
Proof.
  apply (ring_arc_constant 1 (mounted (1000, 1000) 1)); reflexivity.
Defined.

(** ** The geometry of the orbits *)

(** Two arrays left by frames at scale factors [scale] and [k * scale] (same
    time and angle): the second is the first magnified by [k]. *)
Lemma entries_scale (bs : list Body.t) (t angle scale k : R)
    (st1 st2 : list St.t) :
  parents_first bs = true ->
  (forall i b, bs !! i = Some b ->
     exists par, resolve_parent st1 (Body.o b) = Some par
              /\ st1 !! i = Some (update_body t angle scale b par)) ->
  (forall i b, bs !! i = Some b ->
     exists par, resolve_parent st2 (Body.o b) = Some par
              /\ st2 !! i = Some (update_body t angle (k * scale) b par)) ->
  forall n i b s1 s2, (i < n)%nat -> bs !! i = Some b ->
    st1 !! i = Some s1 -> st2 !! i = Some s2 ->
    St.x s2 = k * St.x s1 /\ St.y s2 = k * St.y s1
    /\ St.z s2 = k * St.z s1 /\ St.dr s2 = k * St.dr s1.
Proof.
  intros Hpf H1 H2. induction n as [|n IH]; intros i b s1 s2 Hi Hb Hs1 Hs2.
  - lia.
  - destruct (H1 i b Hb) as [[[x1 y1] z1] [Hp1 He1]].
    destruct (H2 i b Hb) as [[[x2 y2] z2] [Hp2 He2]].
    assert (s1 = update_body t angle scale b (x1, y1, z1)) by congruence.
    assert (s2 = update_body t angle (k * scale) b (x2, y2, z2))
      by congruence.
    subst s1 s2.
    assert (Hpar : x2 = k * x1 /\ y2 = k * y1 /\ z2 = k * z1).
    { destruct (Body.o b) as [j|] eqn:Ho; simpl in Hp1, Hp2.
      - pose proof (parents_first_lt bs Hpf i b j Hb Ho) as Hj.
        destruct (st1 !! j) as [p1|] eqn:Hj1; [|discriminate].
        destruct (st2 !! j) as [p2|] eqn:Hj2; [|discriminate].
        simpl in Hp1, Hp2. injection Hp1 as <- <- <-.
        injection Hp2 as <- <- <-.
        destruct (lookup_lt_is_Some_2 bs j) as [bj Hbj].
        { apply lookup_lt_Some in Hb. lia. }
        destruct (IH j bj p1 p2 ltac:(lia) Hbj Hj1 Hj2) as (Hx & Hy & Hz & _).
        auto.
      - injection Hp1 as <- <- <-. injection Hp2 as <- <- <-.
        repeat split; ring. }
    destruct Hpar as (-> & -> & ->). simpl. repeat split; ring.
Qed.

(** X12. Zoom is a magnification about the origin: for a catalog that lists
    parents first, a frame at scale factor [k * scale] leaves every body at
    [k] times the position, and with [k] times the scaled orbit distance,
    that a frame at scale factor [scale] leaves it at the same time and
    angle; chains of satellites scale with their parents. *)
Theorem positions_scale_linearly (bs : list Body.t) (t angle scale k : R)
    (st1 st2 : list St.t) :
  parents_first bs = true ->
  length st1 = length bs -> length st2 = length bs ->
  exists st1' st2',
    update_positions bs t angle scale st1 = Some st1'
    /\ update_positions bs t angle (k * scale) st2 = Some st2'
    /\ length st1' = length bs /\ length st2' = length bs
    /\ forall i s1 s2, st1' !! i = Some s1 -> st2' !! i = Some s2 ->
         St.x s2 = k * St.x s1 /\ St.y s2 = k * St.y s1
         /\ St.z s2 = k * St.z s1 /\ St.dr s2 = k * St.dr s1.
Proof.
  intros Hpf Hl1 Hl2.
  destruct (update_positions_entry bs t angle scale st1 Hpf Hl1)
    as [a [Ha [Hla Hea]]].
  destruct (update_positions_entry bs t angle (k * scale) st2 Hpf Hl2)
    as [b [Hb [Hlb Heb]]].
  exists a, b. repeat (split; [assumption|]).
  intros i s1 s2 Hs1 Hs2.
  pose proof (lookup_lt_Some _ _ _ Hs1) as Hi.
  destruct (lookup_lt_is_Some_2 bs i ltac:(lia)) as [bi Hbi].
  exact (entries_scale bs t angle scale k a b Hpf Hea Heb (S i) i bi s1 s2
           ltac:(lia) Hbi Hs1 Hs2).
Qed.

Lemma positions_scale_linearly_witness :
  exists st1' st2',
    update_positions bodies 9e5 (-0.3) (1 / 13) state0 = Some st1'
    /\ update_positions bodies 9e5 (-0.3) (3 * (1 / 13))
         (map (fun _ => St.mk 1 2 3 4 5) bodies) = Some st2'
    /\ length st1' = length bodies /\ length st2' = length bodies
    /\ forall i s1 s2, st1' !! i = Some s1 -> st2' !! i = Some s2 ->
         St.x s2 = 3 * St.x s1 /\ St.y s2 = 3 * St.y s1
         /\ St.z s2 = 3 * St.z s1 /\ St.dr s2 = 3 * St.dr s1.
Proof.
  apply (positions_scale_linearly bodies 9e5 (-0.3) (1 / 13) 3 state0
           (map (fun _ => St.mk 1 2 3 4 5) bodies)); reflexivity.
Defined.

Lemma orbit_quarter (t p : R) : orbit t p (PI / 2) = - sin (t / p * 2 * PI).
Proof.
  unfold orbit. rewrite cos_plus, cos_PI2, sin_PI2. ring.
Qed.

(** X13. Orbits are circles: after every frame the distance between a body
    and the point it orbits (the position of its parent, or the origin for
    a body without one) is exactly its scaled orbit distance,
    [Δx² + Δy² + Δz² = (d * scale)²], at every time and viewing angle. *)
Theorem orbit_radius_constant (bs : list Body.t) (t angle scale : R)
    (st : list St.t) (i : nat) (b : Body.t) :
  parents_first bs = true -> length st = length bs -> bs !! i = Some b ->
  exists st' s px py pz,
    update_positions bs t angle scale st = Some st'
    /\ st' !! i = Some s
    /\ resolve_parent st' (Body.o b) = Some (px, py, pz)
    /\ (St.x s - px) * (St.x s - px) + (St.y s - py) * (St.y s - py)
       + (St.z s - pz) * (St.z s - pz)
       = (Body.d b * scale) * (Body.d b * scale)
    /\ St.dr s = Body.d b * scale.
Proof.
  intros Hpf Hlen Hb.
  destruct (update_positions_entry bs t angle scale st Hpf Hlen)
    as [st' [Hrun [_ Hent]]].
  destruct (Hent i b Hb) as [[[px py] pz] [Hpar Hs]].
  exists st', (update_body t angle scale b (px, py, pz)), px, py, pz.
  split; [exact Hrun|]. split; [exact Hs|]. split; [exact Hpar|].
  split; [|reflexivity]. simpl.
  rewrite orbit_quarter. unfold orbit. rewrite Rplus_0_r.
  set (phi := t / Body.p b * 2 * PI).
  pose proof (sin2_cos2 phi) as Hphi. pose proof (sin2_cos2 angle) as Hang.
  unfold Rsqr in Hphi, Hang.
  set (D := Body.d b * scale).
  replace ((px + D * cos phi - px) * (px + D * cos phi - px)
           + (py + sin angle * D * - sin phi - py)
             * (py + sin angle * D * - sin phi - py)
           + (pz + cos angle * D * - sin phi - pz)
             * (pz + cos angle * D * - sin phi - pz))
    with (D * D * (cos phi * cos phi
                   + sin phi * sin phi
                     * (sin angle * sin angle + cos angle * cos angle)))
    by ring.
  rewrite Hang.
  replace (cos phi * cos phi + sin phi * sin phi * 1)
    with (sin phi * sin phi + cos phi * cos phi) by ring.
  rewrite Hphi. ring.
Qed.

Lemma orbit_radius_constant_witness :
  exists st' s px py pz,
    update_positions bodies 9e5 (-0.3) 1 state0 = Some st'
    /\ st' !! 4%nat = Some s
    /\ resolve_parent st' (Body.o moon) = Some (px, py, pz)
    /\ (St.x s - px) * (St.x s - px) + (St.y s - py) * (St.y s - py)
       + (St.z s - pz) * (St.z s - pz)
       = (Body.d moon * 1) * (Body.d moon * 1)
    /\ St.dr s = Body.d moon * 1.
Proof.
  apply (orbit_radius_constant bodies 9e5 (-0.3) 1 state0 4 moon);
    reflexivity.
Defined.

Lemma entries_coplanar (bs : list Body.t) (t angle scale : R)
    (st' : list St.t) :
  parents_first bs = true ->
  (forall i b, bs !! i = Some b ->
     exists par, resolve_parent st' (Body.o b) = Some par
              /\ st' !! i = Some (update_body t angle scale b par)) ->
  forall n i b s, (i < n)%nat -> bs !! i = Some b -> st' !! i = Some s ->
    St.y s * cos angle = St.z s * sin angle.
Proof.
  intros Hpf Hent. induction n as [|n IH]; intros i b s Hi Hb Hs; [lia|].
  destruct (Hent i b Hb) as [[[px py] pz] [Hpar He]].
  assert (s = update_body t angle scale b (px, py, pz)) by congruence.
  subst s.
  assert (Hp : py * cos angle = pz * sin angle).
  { destruct (Body.o b) as [j|] eqn:Ho; simpl in Hpar.
    - pose proof (parents_first_lt bs Hpf i b j Hb Ho) as Hj.
      destruct (st' !! j) as [sj|] eqn:Hsj; [|discriminate].
      simpl in Hpar. injection Hpar as <- <- <-.
      destruct (lookup_lt_is_Some_2 bs j) as [bj Hbj].
      { apply lookup_lt_Some in Hb. lia. }
      exact (IH j bj sj ltac:(lia) Hbj Hsj).
    - injection Hpar as <- <- <-. ring. }
  simpl. nra.
Qed.

(** X14. All bodies move in one tilted plane through the origin: after
    every frame over a catalog that lists parents first,
    [y * cos(angle) = z * sin(angle)] for every body.  When the sine of the
    angle is negative and its cosine positive, as for -0.3, a body is
    therefore at least as far as another exactly when it is at least as
    high on the screen. *)
Theorem bodies_coplanar (bs : list Body.t) (t angle scale : R)
    (st : list St.t) :
  parents_first bs = true -> length st = length bs ->
  exists st',
    update_positions bs t angle scale st = Some st'
    /\ (forall i s, st' !! i = Some s ->
          St.y s * cos angle = St.z s * sin angle)
    /\ (sin angle < 0 -> 0 < cos angle ->
        forall i j s1 s2, st' !! i = Some s1 -> st' !! j = Some s2 ->
          (St.z s2 <= St.z s1 <-> St.y s1 <= St.y s2)).
Proof.
  intros Hpf Hlen.
  destruct (update_positions_entry bs t angle scale st Hpf Hlen)
    as [st' [Hrun [Hlen' Hent]]].
  exists st'. split; [exact Hrun|].
  assert (Hplane : forall i s, st' !! i = Some s ->
            St.y s * cos angle = St.z s * sin angle).
  { intros i s Hs. pose proof (lookup_lt_Some _ _ _ Hs) as Hi.
    destruct (lookup_lt_is_Some_2 bs i ltac:(lia)) as [b Hb].
    exact (entries_coplanar bs t angle scale st' Hpf Hent (S i) i b s
             ltac:(lia) Hb Hs). }
  split; [exact Hplane|].
  intros Hsin Hcos i j s1 s2 Hs1 Hs2.
  pose proof (Hplane i s1 Hs1) as H1. pose proof (Hplane j s2 Hs2) as H2.
  split; intros H; nra.
Qed.

Lemma bodies_coplanar_witness :
  exists st',
    update_positions bodies 9e5 (-0.3) 1 state0 = Some st'
    /\ (forall i s, st' !! i = Some s ->
          St.y s * cos (-0.3) = St.z s * sin (-0.3))
    /\ (sin (-0.3) < 0 -> 0 < cos (-0.3) ->
        forall i j s1 s2, st' !! i = Some s1 -> st' !! j = Some s2 ->
          (St.z s2 <= St.z s1 <-> St.y s1 <= St.y s2)).
Proof.
  apply (bodies_coplanar bodies 9e5 (-0.3) 1 state0); reflexivity.
Defined.

(** ** When the update loop throws *)

Lemma update_step_none (bs : list Body.t) (t angle scale : R)
    (st : list St.t) (k : nat) :
  length st = length bs -> (k < length bs)%nat ->
  (update_step bs t angle scale st k = None
   <-> exists b j, bs !! k = Some b /\ Body.o b = Some j
                /\ (length bs <= j)%nat)
  /\ forall st', update_step bs t angle scale st k = Some st' ->
       length st' = length bs.
Proof.
  intros Hlen Hk.
  destruct (lookup_lt_is_Some_2 bs k Hk) as [b Hb].
  destruct (lookup_lt_is_Some_2 st k ltac:(lia)) as [s Hs].
  unfold update_step. rewrite Hb. simpl. rewrite Hs. simpl.
  destruct (Body.o b) as [j|] eqn:Ho; simpl.
  - destruct (st !! j) as [sj|] eqn:Hj; simpl.
    + split.
      * split; [discriminate|]. intros (b' & j' & Hb' & Ho' & Hj').
        assert (b' = b) by congruence. subst b'.
        assert (j' = j) by congruence. subst j'.
        apply lookup_lt_Some in Hj. lia.
      * intros st' [= <-]. rewrite length_insert. exact Hlen.
    + split; [|discriminate]. split; [|reflexivity]. intros _.
      exists b, j. repeat split; try assumption.
      apply lookup_ge_None_1 in Hj. lia.
  - split.
    + split; [discriminate|]. intros (b' & j' & Hb' & Ho' & _). congruence.
    + intros st' [= <-]. rewrite length_insert. exact Hlen.
Qed.

Lemma update_loop_none (bs : list Body.t) (t angle scale : R) (n k : nat)
    (st : list St.t) :
  length st = length bs -> (k + n = length bs)%nat ->
  (update_loop bs t angle scale (seq k n) st = None
   <-> exists i b j, (k <= i)%nat /\ bs !! i = Some b /\ Body.o b = Some j
                  /\ (length bs <= j)%nat).
Proof.
  revert k st. induction n as [|n IH]; intros k st Hlen Hkn.
  - simpl. split; [discriminate|].
    intros (i & b & j & Hi & Hb & _). apply lookup_lt_Some in Hb. lia.
  - destruct (update_step_none bs t angle scale st k Hlen ltac:(lia))
      as [Hnone Hsome].
    simpl. destruct (update_step bs t angle scale st k) as [st1|] eqn:Hstep;
      simpl.
    + rewrite (IH (S k) st1 (Hsome st1 eq_refl) ltac:(lia)). split.
      * intros (i & b & j & Hi & H). exists i, b, j. split; [lia|exact H].
      * intros (i & b & j & Hi & Hb & Ho & Hj).
        destruct (decide (i = k)) as [->|Hne].
        -- assert (Some st1 = None); [|discriminate].
           apply Hnone. eauto.
        -- exists i, b, j. split; [lia|auto].
    + split; [|reflexivity]. intros _.
      destruct (proj1 Hnone eq_refl) as (b & j & Hb & Ho & Hj).
      exists k, b, j. split; [lia|auto].
Qed.

(** X15. The update loop throws exactly when some body names a parent index
    that is not an index of the catalog ([state[b.o]] is then [undefined]
    and [parent.x] a [TypeError]); with a [state] array as long as the
    catalog nothing else can make it fail, not even a parent listed after
    its satellite. *)
Theorem update_positions_throws_iff (bs : list Body.t) (t angle scale : R)
    (st : list St.t) :
  length st = length bs ->
  (update_positions bs t angle scale st = None
   <-> exists i b j, bs !! i = Some b /\ Body.o b = Some j
                  /\ (length bs <= j)%nat).
Proof.
  intros Hlen. unfold update_positions.
  rewrite (update_loop_none bs t angle scale (length bs) 0 st Hlen eq_refl).
  split.
  - intros (i & b & j & _ & H). eauto.
  - intros (i & b & j & H). exists i, b, j. split; [lia|exact H].
Qed.

Lemma update_positions_throws_iff_witness :
  update_positions [sun; Body.mk 7 20 58.6 (Some 2%nat) None] 9e5 (-0.3) 1
    [zero_state; zero_state] = None
  <-> exists i b j,
        [sun; Body.mk 7 20 58.6 (Some 2%nat) None] !! i = Some b
        /\ Body.o b = Some j
        /\ (length [sun; Body.mk 7 20 58.6 (Some 2%nat) None] <= j)%nat.
Proof.
  apply (update_positions_throws_iff
           [sun; Body.mk 7 20 58.6 (Some 2%nat) None] 9e5 (-0.3) 1
           [zero_state; zero_state]).
  reflexivity.
Defined.

(** ** A parent listed after its satellite *)

Lemma update_loop_app (bs : list Body.t) (t angle scale : R)
    (idx1 idx2 : list nat) (st : list St.t) :
  update_loop bs t angle scale (idx1 ++ idx2) st
  = st1 ← update_loop bs t angle scale idx1 st;
    update_loop bs t angle scale idx2 st1.
Proof.
  revert st. induction idx1 as [|i idx1 IH]; intros st; simpl; [reflexivity|].
  destruct (update_step bs t angle scale st i) as [st1|]; simpl;
    [apply IH|reflexivity].
Qed.

(** The iterations at the indices [idx] leave every other entry alone. *)
Lemma update_loop_elsewhere (bs : list Body.t) (t angle scale : R)
    (idx : list nat) (st st' : list St.t) (m : nat) :
  update_loop bs t angle scale idx st = Some st' -> ~ In m idx ->
  st' !! m = st !! m.
Proof.
  revert st. induction idx as [|i idx IH]; intros st; simpl.
  - intros [= <-] _. reflexivity.
  - destruct (update_step bs t angle scale st i) as [st1|] eqn:Hstep;
      [|discriminate]. simpl. intros Hrun Hm.
    rewrite (IH st1 Hrun) by tauto.
    unfold update_step in Hstep.
    destruct (bs !! i) as [bi|]; [|discriminate]. simpl in Hstep.
    destruct (st !! i); [|discriminate]. simpl in Hstep.
    destruct (resolve_parent st (Body.o bi)); [|discriminate].
    simpl in Hstep. injection Hstep as <-.
    apply list_lookup_insert_ne. tauto.
Qed.

(** X16. The order of the catalog matters: a body listed before its parent,
    or naming itself as parent, is placed by a frame relative to where the
    parent's entry stood before the frame, not where the frame puts it, so
    it trails its parent by one frame (or, as its own parent, drifts). *)
Theorem late_parent_lags (bs : list Body.t) (t angle scale : R)
    (st st' : list St.t) (i j : nat) (b : Body.t) (sj : St.t) :
  bs !! i = Some b -> Body.o b = Some j -> (i <= j)%nat ->
  st !! j = Some sj ->
  update_positions bs t angle scale st = Some st' ->
  st' !! i = Some (update_body t angle scale b (St.pos sj)).
Proof.
  intros Hb Ho Hij Hsj Hrun.
  pose proof (lookup_lt_Some _ _ _ Hb) as Hi.
  unfold update_positions in Hrun.
  replace (length bs) with (i + S (length bs - S i))%nat in Hrun by lia.
  rewrite seq_app, update_loop_app in Hrun. simpl seq in Hrun.
  destruct (update_loop bs t angle scale (seq 0 i) st) as [sta|] eqn:Ha;
    [|discriminate]. simpl in Hrun.
  assert (Hja : sta !! j = Some sj).
  { rewrite (update_loop_elsewhere _ _ _ _ _ _ _ j Ha); [exact Hsj|].
    rewrite in_seq. lia. }
  destruct (update_step bs t angle scale sta i) as [stb|] eqn:Hstep;
    [|discriminate]. simpl in Hrun.
  rewrite (update_loop_elsewhere _ _ _ _ _ _ _ i Hrun)
    by (rewrite in_seq; lia).
  unfold update_step in Hstep. rewrite Hb in Hstep. simpl in Hstep.
  destruct (sta !! i) as [si|] eqn:Hsi; [|discriminate]. simpl in Hstep.
  rewrite Ho in Hstep. simpl in Hstep. rewrite Hja in Hstep.
  simpl in Hstep. injection Hstep as <-.
  apply list_lookup_insert_eq. apply lookup_lt_Some in Hsi. exact Hsi.
Qed.

Lemma late_parent_lags_witness :
  [update_body 9e5 (-0.3) 1 (Body.mk 5 68 100 (Some 1%nat) None) (10, 20, 30);
   update_body 9e5 (-0.3) 1 sun (0, 0, 0)] !! 0%nat
  = Some (update_body 9e5 (-0.3) 1 (Body.mk 5 68 100 (Some 1%nat) None)
            (St.pos (St.mk 10 20 30 1 0))).
Proof.
  apply (late_parent_lags [Body.mk 5 68 100 (Some 1%nat) None; sun]
           9e5 (-0.3) 1 [zero_state; St.mk 10 20 30 1 0]
           [update_body 9e5 (-0.3) 1 (Body.mk 5 68 100 (Some 1%nat) None)
              (10, 20, 30);
            update_body 9e5 (-0.3) 1 sun (0, 0, 0)]
           0 1 (Body.mk 5 68 100 (Some 1%nat) None) (St.mk 10 20 30 1 0));
    try reflexivity.
  lia.
Defined.
